(** * InventoryPro: the registries, the movement ledger and the balance report

    A shallow embedding of [InventoryPro/app.py].  Python values are
    modelled as follows.

    - [str] is a sequence of Unicode code points; comparison, [strip] and
      [split] work on code points, as CPython's do.
    - [int] is [Z].
    - A [dict] is an association list in insertion order (CPython dicts
      iterate in insertion order, and the report's stable sort makes that
      order observable).
    - The records stored in the three JSON files are typed records.
    - The data directory is a map from the three file names to the text
      of the file, when it exists.  [json.dump] and [json.load] are the
      library's; they are a [codec] whose round trip is a hypothesis of
      the theorems that need it.
    - A handler takes the request and the data directory and returns
      either a response together with the new data directory, or the
      exception that escapes it. *)

From Stdlib Require Import List ZArith NArith Bool Lia String Ascii.
From Stdlib Require Import Sorting.Sorted Sorting.Permutation.
Import ListNotations.

Set Implicit Arguments.
Local Open Scope Z_scope.

(** ** Python strings *)

Definition char := N.
Definition str := list char.

(** A literal of the source, read as code points. *)
Definition py (s : string) : str := map N_of_ascii (list_ascii_of_string s).
Arguments py s%_string.

Definition str_eq_dec : forall a b : str, {a = b} + {a <> b} :=
  list_eq_dec N.eq_dec.

Definition str_eqb (a b : str) : bool := if str_eq_dec a b then true else false.

(** [bool(s)] for a string: the empty string is falsy. *)
Definition truthy (s : str) : bool :=
  match s with [] => false | _ :: _ => true end.

(** [a < b] on strings: lexicographic on code points. *)
Fixpoint str_lt (a b : str) : bool :=
  match a, b with
  | _, [] => false
  | [], _ :: _ => true
  | x :: a', y :: b' => if N.eqb x y then str_lt a' b' else N.ltb x y
  end.

Definition str_le (a b : str) : bool := negb (str_lt b a).

(** [c.isspace()] for one code point (CPython's [_PyUnicode_IsWhitespace]). *)
Definition isspace (c : char) : bool :=
  ((9 <=? c) && (c <=? 13) || (28 <=? c) && (c <=? 32)
   || (c =? 133) || (c =? 160) || (c =? 5760)
   || (8192 <=? c) && (c <=? 8202)
   || (c =? 8232) || (c =? 8233) || (c =? 8239) || (c =? 8287)
   || (c =? 12288))%N.

Fixpoint lstrip (s : str) : str :=
  match s with
  | [] => []
  | c :: r => if isspace c then lstrip r else s
  end.

Definition rstrip (s : str) : str := rev (lstrip (rev s)).

(** [s.strip()] *)
Definition strip (s : str) : str := rstrip (lstrip s).

(** The separator of the report's composite keys, ['|']. *)
Definition pipe : char := 124%N.

(** [s.split(sep)] for a one-character separator. *)
Fixpoint split (sep : char) (s : str) : list str :=
  match s with
  | [] => [[]]
  | c :: r =>
      if N.eqb c sep then [] :: split sep r
      else match split sep r with
           | p :: ps => (c :: p) :: ps
           | [] => [[c]]
           end
  end.

(** ** Python dicts, in insertion order *)

Section Dict.
Variable V : Type.

Definition dict := list (str * V).

Fixpoint dict_get (d : dict) (k : str) : option V :=
  match d with
  | [] => None
  | (k', v) :: r => if str_eqb k' k then Some v else dict_get r k
  end.

(** [d.get(k, default)] *)
Definition get (d : dict) (k : str) (default : V) : V :=
  match dict_get d k with Some v => v | None => default end.

(** [d[k] = v]: an existing key keeps its place, a new one goes last. *)
Fixpoint dict_set (d : dict) (k : str) (v : V) : dict :=
  match d with
  | [] => [(k, v)]
  | (k', v') :: r =>
      if str_eqb k' k then (k', v) :: r else (k', v') :: dict_set r k v
  end.

(** [d.items()] *)
Definition items (d : dict) : list (str * V) := d.
End Dict.

(** ** Exceptions *)

Inductive exn := JSONDecodeError | ValueError.

Inductive result (A : Type) :=
| Ok (a : A)
| Raise (e : exn).
Arguments Ok {A} a.
Arguments Raise {A} e.

Definition bind {A B} (r : result A) (k : A -> result B) : result B :=
  match r with Ok a => k a | Raise e => Raise e end.

Notation "x <- r ;; k" := (bind r (fun x => k))
  (at level 61, r at next level, right associativity).

Fixpoint mapM {A B} (f : A -> result B) (l : list A) : result (list B) :=
  match l with
  | [] => Ok []
  | a :: r => b <- f a ;; bs <- mapM f r ;; Ok (b :: bs)
  end.

(** ** The records of the three files *)

Module Product.
Record t := mk { product_id : str; name : str; description : str }.
End Product.

Module Location.
Record t := mk { location_id : str; name : str; address : str }.
End Location.

Module Movement.
Record t := mk {
  movement_id : Z;
  timestamp : str;
  from_location : option str;
  to_location : option str;
  product_id : str;
  qty : Z
}.
End Movement.

(** A row of [report_data]. *)
Module Row.
Record t := mk {
  product_id : str;
  product_name : str;
  location_id : str;
  location_name : str;
  qty : Z
}.
End Row.

(** [bool(x)] for a location field: [None] and the empty string are falsy. *)
Definition present (x : option str) : bool :=
  match x with None => false | Some s => truthy s end.

(** ** The flat-record store *)

Inductive filename := PRODUCTS_FILE | LOCATIONS_FILE | MOVEMENTS_FILE.

Definition filename_eqb (f g : filename) : bool :=
  match f, g with
  | PRODUCTS_FILE, PRODUCTS_FILE
  | LOCATIONS_FILE, LOCATIONS_FILE
  | MOVEMENTS_FILE, MOVEMENTS_FILE => true
  | _, _ => false
  end.

(** [json.dump] and [json.load] at one type of document; [json_load]
    returns [None] where the library raises. *)
Record codec (text A : Type) := {
  json_dump : A -> text;
  json_load : text -> option A
}.

(** What the library promises of a document it wrote itself. *)
Definition round_trips {text A} (c : codec text A) : Prop :=
  forall a, json_load c (json_dump c a) = Some a.

Section Store.
Variable text : Type.

(** The data directory: the text of each file, [None] when the file
    does not exist. *)
Definition disk := filename -> option text.

Variable A : Type.
Variable c : codec text (list A).

Definition load_data (fs : disk) (f : filename) : result (list A) :=
  match fs f with
  | Some t =>
      match json_load c t with
      | Some data => Ok data
      | None => Raise JSONDecodeError
      end
  | None => Ok []
  end.

Definition save_data (fs : disk) (f : filename) (data : list A) : disk :=
  fun g => if filename_eqb g f then Some (json_dump c data) else fs g.
End Store.

(** ** Requests and responses *)

Inductive method := GET | POST.

(** What a handler answers: a rendered template, or a flashed message
    followed by a redirect to an endpoint. *)
Inductive response :=
| render_template (template : string)
| flash_redirect (message category endpoint : string).

(** [request.form] of the two registries; [description] and [address]
    are read with [.get(..., '')] and may be missing. *)
Record product_form := {
  pf_product_id : str;
  pf_name : str;
  pf_description : option str
}.

Record location_form := {
  lf_location_id : str;
  lf_name : str;
  lf_address : option str
}.

(** [request.form] of the two edit pages: the identifier is in the URL. *)
Record product_edit := {
  pe_name : str;
  pe_description : option str
}.

Record location_edit := {
  le_name : str;
  le_address : option str
}.

(** [request.form] of a movement.  [mf_qty] is the value of
    [int(request.form['qty'])]. *)
Record movement_form := {
  mf_product_id : str;
  mf_from_location : option str;
  mf_to_location : option str;
  mf_qty : Z
}.

(** [request.form.get(field, '')] *)
Definition form_get (field : option str) : str :=
  match field with Some s => s | None => [] end.

(** [max(l, default=d)] *)
Definition max_default (l : list Z) (d : Z) : Z :=
  match l with
  | [] => d
  | x :: r => fold_left Z.max r x
  end.

(** [l.sort(key=...)]: a stable sort, here by insertion, on keys that are
    pairs of strings; [key_lt] is [<] on such tuples. *)
Definition key_lt (a b : str * str) : bool :=
  if str_eqb (fst a) (fst b) then str_lt (snd a) (snd b)
  else str_lt (fst a) (fst b).

Section Sort.
Variable A : Type.
Variable key : A -> str * str.

Fixpoint insert (x : A) (l : list A) : list A :=
  match l with
  | [] => [x]
  | y :: r => if key_lt (key y) (key x) then y :: insert x r else x :: l
  end.

Definition sort (l : list A) : list A := fold_right insert [] l.
End Sort.

(** [next((x for x in l if test(x)), None)] is [find test l].  The
    element found is an element of the list itself, so assigning to its
    fields changes the list at that position. *)
Fixpoint update_first {A} (test : A -> bool) (f : A -> A) (l : list A) : list A :=
  match l with
  | [] => []
  | x :: r => if test x then f x :: r else x :: update_first test f r
  end.

(** ** The balance report, on loaded data *)

(** [f"{product_id}|{loc}"] *)
Definition fkey (product_id loc : str) : str := product_id ++ pipe :: loc.

(** One turn of the loop over [movements]. *)
Definition balance_step (balance : dict Z) (movement : Movement.t) : dict Z :=
  let product_id := Movement.product_id movement in
  let qty := Movement.qty movement in
  let from_loc := Movement.from_location movement in
  let to_loc := Movement.to_location movement in
  let balance :=
    match from_loc with
    | Some l =>
        if truthy l then
          let key := fkey product_id l in
          dict_set balance key (get balance key 0 - qty)
        else balance
    | None => balance
    end in
  match to_loc with
  | Some l =>
      if truthy l then
        let key := fkey product_id l in
        dict_set balance key (get balance key 0 + qty)
      else balance
  | None => balance
  end.

Definition balance_of (movements : list Movement.t) : dict Z :=
  fold_left balance_step movements [].

(** [{p['product_id']: p['name'] for p in products}] *)
Definition product_dict (products : list Product.t) : dict str :=
  fold_left (fun d p => dict_set d (Product.product_id p) (Product.name p))
            products [].

Definition location_dict (locations : list Location.t) : dict str :=
  fold_left (fun d l => dict_set d (Location.location_id l) (Location.name l))
            locations [].

Definition Unknown : str := py "Unknown".

(** The body of [if qty != 0:]; unpacking [key.split('|')] into two
    names raises [ValueError] unless there are exactly two parts. *)
Definition row_of (pd ld : dict str) (item : str * Z) : result Row.t :=
  let (key, qty) := item in
  match split pipe key with
  | [product_id; location_id] =>
      Ok (Row.mk product_id (get pd product_id Unknown)
                 location_id (get ld location_id Unknown) qty)
  | _ => Raise ValueError
  end.

Definition row_key (x : Row.t) : str * str :=
  (Row.product_name x, Row.location_name x).

Definition report_data (movements : list Movement.t)
    (products : list Product.t) (locations : list Location.t)
  : result (list Row.t) :=
  let balance := balance_of movements in
  let pd := product_dict products in
  let ld := location_dict locations in
  rows <- mapM (row_of pd ld)
            (filter (fun item => negb (snd item =? 0)) (items balance)) ;;
  Ok (sort row_key rows).

(** ** The handlers *)

Section App.
Variable text : Type.
Variable cp : codec text (list Product.t).
Variable cl : codec text (list Location.t).
Variable cm : codec text (list Movement.t).

Local Open Scope string_scope.

(** [products()] and [locations()] hand the loaded list to their
    template. *)
Definition products (fs : disk text) : result (list Product.t) :=
  load_data cp fs PRODUCTS_FILE.

Definition locations (fs : disk text) : result (list Location.t) :=
  load_data cl fs LOCATIONS_FILE.

Definition add_product (m : method) (form : product_form) (fs : disk text)
  : result (response * disk text) :=
  match m with
  | POST =>
      products <- load_data cp fs PRODUCTS_FILE ;;
      let product_id := strip (pf_product_id form) in
      let name := strip (pf_name form) in
      let description := strip (form_get (pf_description form)) in
      if existsb (fun p => str_eqb (Product.product_id p) product_id) products
      then Ok (flash_redirect "Product ID already exists!" "error"
                              "add_product", fs)
      else
        let products := (products ++ [Product.mk product_id name description])%list in
        Ok (flash_redirect "Product added successfully!" "success" "products",
            save_data cp fs PRODUCTS_FILE products)
  | GET => Ok (render_template "add_product.html", fs)
  end.

Definition edit_product (m : method) (product_id : str) (form : product_edit)
    (fs : disk text) : result (response * disk text) :=
  products <- load_data cp fs PRODUCTS_FILE ;;
  let test := fun p => str_eqb (Product.product_id p) product_id in
  match find test products with
  | None => Ok (flash_redirect "Product not found!" "error" "products", fs)
  | Some product =>
      match m with
      | POST =>
          let products :=
            update_first test
              (fun p => Product.mk (Product.product_id p)
                          (strip (pe_name form))
                          (strip (form_get (pe_description form))))
              products in
          Ok (flash_redirect "Product updated successfully!" "success"
                             "products",
              save_data cp fs PRODUCTS_FILE products)
      | GET => Ok (render_template "edit_product.html", fs)
      end
  end.

Definition add_location (m : method) (form : location_form) (fs : disk text)
  : result (response * disk text) :=
  match m with
  | POST =>
      locations <- load_data cl fs LOCATIONS_FILE ;;
      let location_id := strip (lf_location_id form) in
      let name := strip (lf_name form) in
      let address := strip (form_get (lf_address form)) in
      if existsb (fun l => str_eqb (Location.location_id l) location_id) locations
      then Ok (flash_redirect "Location ID already exists!" "error"
                              "add_location", fs)
      else
        let locations := (locations ++ [Location.mk location_id name address])%list in
        Ok (flash_redirect "Location added successfully!" "success" "locations",
            save_data cl fs LOCATIONS_FILE locations)
  | GET => Ok (render_template "add_location.html", fs)
  end.

Definition edit_location (m : method) (location_id : str) (form : location_edit)
    (fs : disk text) : result (response * disk text) :=
  locations <- load_data cl fs LOCATIONS_FILE ;;
  let test := fun l => str_eqb (Location.location_id l) location_id in
  match find test locations with
  | None => Ok (flash_redirect "Location not found!" "error" "locations", fs)
  | Some location =>
      match m with
      | POST =>
          let locations :=
            update_first test
              (fun l => Location.mk (Location.location_id l)
                          (strip (le_name form))
                          (strip (form_get (le_address form))))
              locations in
          Ok (flash_redirect "Location updated successfully!" "success"
                             "locations",
              save_data cl fs LOCATIONS_FILE locations)
      | GET => Ok (render_template "edit_location.html", fs)
      end
  end.

(** [if not x: x = None] *)
Definition none_if_empty (x : str) : option str :=
  if negb (truthy x) then None else Some x.

(** [now] is [datetime.now().strftime('%Y-%m-%d %H:%M:%S')]. *)
Definition add_movement (m : method) (form : movement_form) (now : str)
    (fs : disk text) : result (response * disk text) :=
  products <- load_data cp fs PRODUCTS_FILE ;;
  locations <- load_data cl fs LOCATIONS_FILE ;;
  match m with
  | POST =>
      movements <- load_data cm fs MOVEMENTS_FILE ;;
      let product_id := mf_product_id form in
      let from_location := strip (form_get (mf_from_location form)) in
      let to_location := strip (form_get (mf_to_location form)) in
      let qty := mf_qty form in
      let from_location := none_if_empty from_location in
      let to_location := none_if_empty to_location in
      if negb (present from_location) && negb (present to_location)
      then Ok (flash_redirect
                 "At least one location (From or To) must be selected!"
                 "error" "add_movement", fs)
      else
        let movement_id :=
          max_default (map Movement.movement_id movements) 0 + 1 in
        let movements :=
          (movements ++ [Movement.mk movement_id now from_location
                                     to_location product_id qty])%list in
        Ok (flash_redirect "Movement added successfully!" "success"
                           "movements",
            save_data cm fs MOVEMENTS_FILE movements)
  | GET => Ok (render_template "add_movement.html", fs)
  end.

Definition report (fs : disk text) : result (list Row.t) :=
  movements <- load_data cm fs MOVEMENTS_FILE ;;
  products <- load_data cp fs PRODUCTS_FILE ;;
  locations <- load_data cl fs LOCATIONS_FILE ;;
  report_data movements products locations.
End App.

(** ** The specification's reading of the report *)

(** The location field is present and names [loc]. *)
Definition names (x : option str) (loc : str) : bool :=
  match x with
  | Some l => truthy l && str_eqb l loc
  | None => false
  end.

(** What one movement adds to the pair [(product_id, loc)]: [qty] is
    subtracted when the movement leaves [loc] and added when it arrives
    there. *)
Definition delta (product_id loc : str) (m : Movement.t) : Z :=
  if str_eqb (Movement.product_id m) product_id then
    (if names (Movement.to_location m) loc then Movement.qty m else 0)
    - (if names (Movement.from_location m) loc then Movement.qty m else 0)
  else 0.

(** The net signed sum of a pair over the ledger, in ledger order. *)
Definition net (movements : list Movement.t) (product_id loc : str) : Z :=
  fold_left (fun acc m => acc + delta product_id loc m) movements 0.

(** No ['|'] in a string. *)
Definition pipe_free (s : str) : Prop := ~ In pipe s.

Definition pipe_free_loc (x : option str) : Prop :=
  match x with Some l => pipe_free l | None => True end.

(** No identifier of the movement contains the separator of the keys. *)
Definition pipe_free_movement (m : Movement.t) : Prop :=
  pipe_free (Movement.product_id m)
  /\ pipe_free_loc (Movement.from_location m)
  /\ pipe_free_loc (Movement.to_location m).

(** The triple a row reports. *)
Definition triple (x : Row.t) : str * str * Z :=
  (Row.product_id x, Row.location_id x, Row.qty x).

(** Ascending on [(product_name, location_name)]: the product name
    decides, the location name breaks its ties. *)
Definition row_le (x y : Row.t) : Prop :=
  str_lt (Row.product_name x) (Row.product_name y) = true
  \/ (Row.product_name x = Row.product_name y
      /\ str_le (Row.location_name x) (Row.location_name y) = true).

(** Blank for [strip]: only whitespace, possibly nothing at all. *)
Definition blank (s : str) : bool := forallb isspace s.

(** A form field that is missing, empty or blank. *)
Definition absent (x : option str) : bool :=
  match x with None => true | Some s => blank s end.

(** Already trimmed: [strip] leaves the string as it is. *)
Definition trimmed (s : str) : Prop := strip s = s.

(** The location field is present and, with [product_id], spells [key]. *)
Definition spells (product_id : str) (x : option str) (key : str) : bool :=
  match x with
  | Some l => truthy l && str_eqb (fkey product_id l) key
  | None => false
  end.

(** What one movement adds to the accumulator stored under [key]. *)
Definition key_delta (key : str) (m : Movement.t) : Z :=
  (if spells (Movement.product_id m) (Movement.to_location m) key
   then Movement.qty m else 0)
  - (if spells (Movement.product_id m) (Movement.from_location m) key
     then Movement.qty m else 0).

Definition key_net (movements : list Movement.t) (key : str) : Z :=
  fold_left (fun acc m => acc + key_delta key m) movements 0.

(** The pair a row stands for. *)
Definition pair_of (x : Row.t) : str * str :=
  (Row.product_id x, Row.location_id x).

(** A key of the balance was spelt by a movement of the ledger. *)
Definition booked (ms : list Movement.t) (k : str) : Prop :=
  exists m l, In m ms /\ truthy l = true /\ k = fkey (Movement.product_id m) l
              /\ (Movement.from_location m = Some l
                  \/ Movement.to_location m = Some l).

(** [a <= b] on the sort keys: [b] is not below [a]. *)
Definition key_le (a b : str * str) : bool := negb (key_lt b a).

(** ** Ledgers and registries used as examples *)

Definition stamp : str := py "2024-01-01 00:00:00".

(** The ledger of the specification's example: ten of [P1] received at
    [L1], four of them moved on to [L2]. *)
Definition receipt_P1_L1 : Movement.t :=
  Movement.mk 1 stamp None (Some (py "L1")) (py "P1") 10.

Definition transfer_P1_L1_L2 : Movement.t :=
  Movement.mk 2 stamp (Some (py "L1")) (Some (py "L2")) (py "P1") 4.

(** Two receipts whose pairs differ and whose keys are both ["a|b|c"]. *)
Definition receipt_ab_c : Movement.t :=
  Movement.mk 1 stamp None (Some (py "c")) (py "a|b") 1.

Definition receipt_a_bc : Movement.t :=
  Movement.mk 2 stamp None (Some (py "b|c")) (py "a") 1.

(** An issue booked under the key ["a|b|c"] as well. *)
Definition issue_a_bc : Movement.t :=
  Movement.mk 2 stamp (Some (py "b|c")) None (py "a") 1.

(** Three products, two of them with the same name, at two locations. *)
Definition some_products : list Product.t :=
  [ Product.mk (py "P1") (py "Widget") (py "small");
    Product.mk (py "P2") (py "Widget") (py "large");
    Product.mk (py "P3") (py "anvil") [] ].

Definition some_locations : list Location.t :=
  [ Location.mk (py "L1") (py "Yard") [];
    Location.mk (py "L2") (py "Annex") (py "2 Side St") ].

Definition some_movements : list Movement.t :=
  [ Movement.mk 1 stamp None (Some (py "L1")) (py "P3") 7;
    Movement.mk 2 stamp None (Some (py "L1")) (py "P2") 5;
    Movement.mk 3 stamp None (Some (py "L1")) (py "P1") 9;
    Movement.mk 4 stamp (Some (py "L1")) (Some (py "L2")) (py "P1") 9;
    Movement.mk 5 stamp (Some (py "L1")) (Some (py "L2")) (py "P2") 2 ].

(** Movements that stay where they are. *)
Definition self_transfers : list Movement.t :=
  [ Movement.mk 1 stamp (Some (py "L1")) (Some (py "L1")) (py "P1") 3;
    Movement.mk 2 stamp (Some (py "x|y")) (Some (py "x|y")) (py "P|2") 8;
    Movement.mk 3 stamp None None (py "P1") 1 ].

(** ** The registries and the ledger as the specification names them *)

(** The named failures and successes are the flashed messages. *)
Definition DuplicateProductId : response :=
  flash_redirect "Product ID already exists!" "error" "add_product".

Definition DuplicateLocationId : response :=
  flash_redirect "Location ID already exists!" "error" "add_location".

Definition ProductNotFound : response :=
  flash_redirect "Product not found!" "error" "products".

Definition LocationNotFound : response :=
  flash_redirect "Location not found!" "error" "locations".

Definition InvalidMovement : response :=
  flash_redirect "At least one location (From or To) must be selected!"
                 "error" "add_movement".

Definition ProductAdded : response :=
  flash_redirect "Product added successfully!" "success" "products".

Definition LocationAdded : response :=
  flash_redirect "Location added successfully!" "success" "locations".

Definition ProductUpdated : response :=
  flash_redirect "Product updated successfully!" "success" "products".

Definition LocationUpdated : response :=
  flash_redirect "Location updated successfully!" "success" "locations".

Definition MovementAdded : response :=
  flash_redirect "Movement added successfully!" "success" "movements".

(** The form that submits a record as it is. *)
Definition product_form_of (r : Product.t) : product_form :=
  {| pf_product_id := Product.product_id r;
     pf_name := Product.name r;
     pf_description := Some (Product.description r) |}.

Definition location_form_of (r : Location.t) : location_form :=
  {| lf_location_id := Location.location_id r;
     lf_name := Location.name r;
     lf_address := Some (Location.address r) |}.

(** The registries are handed fields that are already trimmed. *)
Definition trimmed_product (r : Product.t) : Prop :=
  trimmed (Product.product_id r) /\ trimmed (Product.name r)
  /\ trimmed (Product.description r).

Definition trimmed_location (r : Location.t) : Prop :=
  trimmed (Location.location_id r) /\ trimmed (Location.name r)
  /\ trimmed (Location.address r).

(** The optional identifier a location field stands for: the empty
    string stands for none. *)
Definition given (x : option str) : option str :=
  if present x then x else None.

(** What [add_movement] makes of a location field. *)
Definition location_field (x : option str) : option str :=
  none_if_empty (strip (form_get x)).

(** Requests served one after the other, each on the data directory the
    one before left. *)
Fixpoint serve {text : Type}
    (requests : list (disk text -> result (response * disk text)))
    (fs : disk text) : result (list response * disk text) :=
  match requests with
  | [] => Ok ([], fs)
  | h :: rest =>
      r1 <- h fs ;;
      r2 <- serve rest (snd r1) ;;
      Ok (fst r1 :: fst r2, snd r2)
  end.

(** Strictly increasing identifiers along the ledger. *)
Definition increasing_ids (ms : list Movement.t) : Prop :=
  StronglySorted Z.lt (map Movement.movement_id ms).

(** A model of the text of the files: the document the text spells.
    Loading a document of another kind raises. *)
Inductive document :=
| ProductsDoc (l : list Product.t)
| LocationsDoc (l : list Location.t)
| MovementsDoc (l : list Movement.t).

Definition products_codec : codec document (list Product.t) :=
  {| json_dump := ProductsDoc;
     json_load := fun d => match d with ProductsDoc l => Some l | _ => None end |}.

Definition locations_codec : codec document (list Location.t) :=
  {| json_dump := LocationsDoc;
     json_load := fun d => match d with LocationsDoc l => Some l | _ => None end |}.

Definition movements_codec : codec document (list Movement.t) :=
  {| json_dump := MovementsDoc;
     json_load := fun d => match d with MovementsDoc l => Some l | _ => None end |}.

(** A data directory in which no file exists yet. *)
Definition no_files : disk document := fun _ => None.

(** A data directory holding the example registries and ledger. *)
Definition some_files : disk document :=
  fun f => match f with
           | PRODUCTS_FILE => Some (ProductsDoc some_products)
           | LOCATIONS_FILE => Some (LocationsDoc some_locations)
           | MOVEMENTS_FILE => Some (MovementsDoc some_movements)
           end.

(** The record [add_product] builds from a form, and the one
    [add_location] builds. *)
Definition product_of_form (f : product_form) : Product.t :=
  Product.mk (strip (pf_product_id f)) (strip (pf_name f))
             (strip (form_get (pf_description f))).

Definition location_of_form (f : location_form) : Location.t :=
  Location.mk (strip (lf_location_id f)) (strip (lf_name f))
              (strip (form_get (lf_address f))).

(** What [edit_product] makes of a record, and [edit_location]. *)
Definition product_edited (e : product_edit) (p : Product.t) : Product.t :=
  Product.mk (Product.product_id p) (strip (pe_name e))
             (strip (form_get (pe_description e))).

Definition location_edited (e : location_edit) (l : Location.t) : Location.t :=
  Location.mk (Location.location_id l) (strip (le_name e))
              (strip (form_get (le_address e))).

(** The edit that sets the mutable fields to the given values. *)
Definition set_product (e : product_edit) (p : Product.t) : Product.t :=
  Product.mk (Product.product_id p) (pe_name e) (form_get (pe_description e)).

Definition set_location (e : location_edit) (l : Location.t) : Location.t :=
  Location.mk (Location.location_id l) (le_name e) (form_get (le_address e)).

Definition trimmed_product_edit (e : product_edit) : Prop :=
  trimmed (pe_name e) /\ trimmed (form_get (pe_description e)).

Definition trimmed_location_edit (e : location_edit) : Prop :=
  trimmed (le_name e) /\ trimmed (form_get (le_address e)).

(** What the specification asks of [add] in a registry.  The records,
    of type [R], are identified by [ident], stored in [file] and listed
    by [list_]; [add] takes a form of type [F], of which [stored] is the
    record to store.

    - [add] of a form whose identifier is in the store answers
      [duplicate] and leaves the data directory as it is, and [add]
      answers [duplicate] in no other case;
    - otherwise it answers [added]; the list is then the old one with
      the record appended, and the other files are as before;
    - forms with identifiers distinct from each other and from the
      stored ones, added one after the other, are all accepted, and the
      list is then the old one followed by their records in that
      order. *)
Definition add_contract {text F R : Type} (ident : R -> str) (stored : F -> R)
    (list_ : disk text -> result (list R))
    (add : F -> disk text -> result (response * disk text))
    (file : filename) (duplicate added : response) : Prop :=
  forall fs rs, list_ fs = Ok rs ->
    (forall f, In (ident (stored f)) (map ident rs) ->
               add f fs = Ok (duplicate, fs))
    /\ (forall f fs', add f fs = Ok (duplicate, fs') ->
                      In (ident (stored f)) (map ident rs))
    /\ (forall f, ~ In (ident (stored f)) (map ident rs) ->
          exists fs',
            add f fs = Ok (added, fs')
            /\ list_ fs' = Ok (rs ++ [stored f])
            /\ forall g, g <> file -> fs' g = fs g)
    /\ (forall news,
          NoDup (map ident (map stored news)) ->
          (forall f, In f news -> ~ In (ident (stored f)) (map ident rs)) ->
          exists fs',
            serve (map add news) fs = Ok (map (fun _ => added) news, fs')
            /\ list_ fs' = Ok (rs ++ map stored news)).

(** What the specification asks of [update] in a registry, [edited e r]
    being the record [r] with the mutable fields the edit [e] gives.

    - [update] of an identifier that is not in the store answers
      [not_found] and leaves the data directory as it is;
    - otherwise it answers [updated]; the first record [r] with that
      identifier has become [edited e r], which has the identifier of
      [r]; the records before and after it are as they were, in the same
      order; and the other files are as before. *)
Definition update_contract {text R E : Type} (ident : R -> str)
    (edited : E -> R -> R)
    (list_ : disk text -> result (list R))
    (update : str -> E -> disk text -> result (response * disk text))
    (file : filename) (not_found updated : response) : Prop :=
  forall fs rs id e, list_ fs = Ok rs ->
    (~ In id (map ident rs) -> update id e fs = Ok (not_found, fs))
    /\ (In id (map ident rs) ->
          exists fs' before r after,
            rs = before ++ r :: after
            /\ ident r = id
            /\ ~ In id (map ident before)
            /\ update id e fs = Ok (updated, fs')
            /\ list_ fs' = Ok (before ++ edited e r :: after)
            /\ ident (edited e r) = ident r
            /\ forall g, g <> file -> fs' g = fs g).

(** A location stored in the ledger is never empty or blank. *)
Definition no_blank_location (x : option str) : Prop :=
  match x with Some s => blank s = false | None => True end.

(** [m] is the greatest element of [l]. *)
Definition is_max (m : Z) (l : list Z) : Prop :=
  In m l /\ Forall (fun i => i <= m) l.

(** ** Requests used as examples *)

(** Four of [P1] from [L1] to [L2]. *)
Definition a_transfer : movement_form :=
  {| mf_product_id := py "P1";
     mf_from_location := Some (py "L1");
     mf_to_location := Some (py "L2");
     mf_qty := 4 |}.

(** As [a_transfer], the fields padded with white space. *)
Definition a_padded_transfer : movement_form :=
  {| mf_product_id := py "P1";
     mf_from_location := Some (py "  L1 ");
     mf_to_location := Some (py " L2");
     mf_qty := 4 |}.

(** A receipt whose source is a blank field. *)
Definition a_receipt : movement_form :=
  {| mf_product_id := py "P1";
     mf_from_location := Some (py "   ");
     mf_to_location := Some (py "L2");
     mf_qty := 4 |}.

(** Both locations blank. *)
Definition a_blank_movement : movement_form :=
  {| mf_product_id := py "P1";
     mf_from_location := Some (py "  ");
     mf_to_location := Some (py " ");
     mf_qty := 4 |}.

(** Both locations left out. *)
Definition an_empty_movement : movement_form :=
  {| mf_product_id := py "P1";
     mf_from_location := None;
     mf_to_location := None;
     mf_qty := 4 |}.

Definition a_new_product : Product.t :=
  Product.mk (py "P4") (py "Bolt") (py "M8, zinc").

Definition a_new_location : Location.t :=
  Location.mk (py "L3") (py "Dock") [].

Definition a_product_edit : product_edit :=
  {| pe_name := py "Gadget"; pe_description := None |}.

Definition a_location_edit : location_edit :=
  {| le_name := py "Main yard"; le_address := Some (py "1 High St") |}.

(** A ledger whose identifiers were edited by hand: increasing, with
    gaps. *)
Definition a_gapped_ledger : list Movement.t :=
  [ Movement.mk 3 stamp None (Some (py "L1")) (py "P1") 10;
    Movement.mk 7 stamp (Some (py "L1")) None (py "P1") 1;
    Movement.mk 40 stamp None (Some (py "L2")) (py "P2") 5 ].

Definition gapped_files : disk document :=
  fun f => match f with
           | MOVEMENTS_FILE => Some (MovementsDoc a_gapped_ledger)
           | _ => None
           end.

(** ** The remaining pages *)

(** A movement as [movements()] hands it to its template: the stored
    record with the three names the loop adds to it. *)
Module Shown.
Record t := mk {
  movement : Movement.t;
  product_name : str;
  from_location_name : str;
  to_location_name : str
}.
End Shown.

Definition dash : str := py "-".

(** [location_dict.get(x, '-') if x else '-'] *)
Definition shown_location (ld : dict str) (x : option str) : str :=
  match x with
  | Some l => if truthy l then get ld l dash else dash
  | None => dash
  end.

(** The body of the loop of [movements()]. *)
Definition show (pd ld : dict str) (movement : Movement.t) : Shown.t :=
  Shown.mk movement
    (get pd (Movement.product_id movement) Unknown)
    (shown_location ld (Movement.from_location movement))
    (shown_location ld (Movement.to_location movement)).

(** The requests that can change the data directory, one constructor for
    each route that is bound to such a handler. *)
Inductive request :=
| AddProduct (m : method) (form : product_form)
| EditProduct (m : method) (product_id : str) (form : product_edit)
| AddLocation (m : method) (form : location_form)
| EditLocation (m : method) (location_id : str) (form : location_edit)
| AddMovement (m : method) (form : movement_form) (now : str).

(** What the three files hold. *)
Record contents := {
  c_products : list Product.t;
  c_locations : list Location.t;
  c_movements : list Movement.t
}.

Section Pages.
Variable text : Type.
Variable cp : codec text (list Product.t).
Variable cl : codec text (list Location.t).
Variable cm : codec text (list Movement.t).

Definition index : response := render_template "index.html".

Definition movements (fs : disk text) : result (list Shown.t) :=
  movements <- load_data cm fs MOVEMENTS_FILE ;;
  products <- load_data cp fs PRODUCTS_FILE ;;
  locations <- load_data cl fs LOCATIONS_FILE ;;
  let pd := product_dict products in
  let ld := location_dict locations in
  let movements := map (show pd ld) movements in
  Ok (rev movements).

(** The routing of the requests to their handlers. *)
Definition handle (r : request) (fs : disk text)
  : result (response * disk text) :=
  match r with
  | AddProduct m form => add_product cp m form fs
  | EditProduct m product_id form => edit_product cp m product_id form fs
  | AddLocation m form => add_location cl m form fs
  | EditLocation m location_id form => edit_location cl m location_id form fs
  | AddMovement m form now => add_movement cp cl cm m form now fs
  end.

(** The three files, loaded. *)
Definition read (fs : disk text) : result contents :=
  ps <- load_data cp fs PRODUCTS_FILE ;;
  ls <- load_data cl fs LOCATIONS_FILE ;;
  ms <- load_data cm fs MOVEMENTS_FILE ;;
  Ok {| c_products := ps; c_locations := ls; c_movements := ms |}.
End Pages.

(** The file a request may write. *)
Definition file_of (r : request) : filename :=
  match r with
  | AddProduct _ _ | EditProduct _ _ _ => PRODUCTS_FILE
  | AddLocation _ _ | EditLocation _ _ _ => LOCATIONS_FILE
  | AddMovement _ _ _ => MOVEMENTS_FILE
  end.

Definition method_of (r : request) : method :=
  match r with
  | AddProduct m _ | EditProduct m _ _ | AddLocation m _
  | EditLocation m _ _ | AddMovement m _ _ => m
  end.

(** The category of the message a response flashes, if it flashes one. *)
Definition category_of (r : response) : option string :=
  match r with
  | render_template _ => None
  | flash_redirect _ category _ => Some category
  end.

(** What one request can do to the contents of the files. *)
Inductive change : contents -> contents -> Prop :=
| change_nothing c : change c c
| product_added ps ls ms f :
    ~ In (Product.product_id (product_of_form f)) (map Product.product_id ps) ->
    change (Build_contents ps ls ms)
           (Build_contents (ps ++ [product_of_form f]) ls ms)
| product_edited_in_place before p after ls ms e :
    ~ In (Product.product_id p) (map Product.product_id before) ->
    change (Build_contents (before ++ p :: after) ls ms)
           (Build_contents (before ++ product_edited e p :: after) ls ms)
| location_added ps ls ms f :
    ~ In (Location.location_id (location_of_form f))
         (map Location.location_id ls) ->
    change (Build_contents ps ls ms)
           (Build_contents ps (ls ++ [location_of_form f]) ms)
| location_edited_in_place ps before l after ms e :
    ~ In (Location.location_id l) (map Location.location_id before) ->
    change (Build_contents ps (before ++ l :: after) ms)
           (Build_contents ps (before ++ location_edited e l :: after) ms)
| movement_appended ps ls ms f now :
    absent (mf_from_location f) && absent (mf_to_location f) = false ->
    change (Build_contents ps ls ms)
           (Build_contents ps ls
              (ms ++ [Movement.mk
                        (max_default (map Movement.movement_id ms) 0 + 1) now
                        (location_field (mf_from_location f))
                        (location_field (mf_to_location f))
                        (mf_product_id f) (mf_qty f)])).

(** Any number of changes, one after the other. *)
Inductive changes : contents -> contents -> Prop :=
| changes_none c : changes c c
| changes_more c1 c2 c3 : change c1 c2 -> changes c2 c3 -> changes c1 c3.

(** [sum(l)] *)
Definition sumZ (l : list Z) : Z := fold_right Z.add 0 l.

(** What a movement brings in, and what it takes out. *)
Definition received (m : Movement.t) : Z :=
  if present (Movement.to_location m) then Movement.qty m else 0.

Definition issued (m : Movement.t) : Z :=
  if present (Movement.from_location m) then Movement.qty m else 0.


(** The row [x] with the names looked up in other registries. *)
Definition renamed (pd ld : dict str) (x : Row.t) : Row.t :=
  Row.mk (Row.product_id x) (get pd (Row.product_id x) Unknown)
         (Row.location_id x) (get ld (Row.location_id x) Unknown)
         (Row.qty x).

(** The registries and the ledger are well kept: identifiers are unique
    in each registry, and ascending in the ledger. *)
Definition unique_ids (c : contents) : Prop :=
  NoDup (map Product.product_id (c_products c))
  /\ NoDup (map Location.location_id (c_locations c)).

(** Every field of the registries is trimmed. *)
Definition all_trimmed (c : contents) : Prop :=
  Forall trimmed_product (c_products c)
  /\ Forall trimmed_location (c_locations c).

(** A stored movement has a source or a destination, and neither is
    empty or blank. *)
Definition located (m : Movement.t) : Prop :=
  present (Movement.from_location m) || present (Movement.to_location m) = true
  /\ no_blank_location (Movement.from_location m)
  /\ no_blank_location (Movement.to_location m).

(** The report of the example ledger and registries. *)
Definition some_rows : list Row.t :=
  [ Row.mk (py "P1") (py "Widget") (py "L2") (py "Annex") 9;
    Row.mk (py "P2") (py "Widget") (py "L2") (py "Annex") 2;
    Row.mk (py "P2") (py "Widget") (py "L1") (py "Yard") 3;
    Row.mk (py "P3") (py "anvil") (py "L1") (py "Yard") 7 ].

(** The name [movements()] shows for a location field: a dash when the
    field is [None] or empty or names no location of the registry, and
    otherwise the name of the last location registered under it. *)
Definition shown_as (ls : list Location.t) (x : option str) (n : str) : Prop :=
  (present x = false -> n = dash)
  /\ (forall l, x = Some l -> truthy l = true ->
        (~ In l (map Location.location_id ls) -> n = dash)
        /\ (forall before r after,
              ls = before ++ r :: after ->
              Location.location_id r = l ->
              ~ In l (map Location.location_id after) ->
              n = Location.name r)).

(** The ledger has strictly increasing identifiers and every movement
    of it is [located]. *)
Definition ledger_kept (c : contents) : Prop :=
  increasing_ids (c_movements c) /\ Forall located (c_movements c).

(** From [c] to [c'] nothing was removed: the ledger of [c'] starts with
    the ledger of [c], unchanged, and each registry of [c'] has as many
    records or more, starting with the identifiers of [c] in the same
    order. *)
Definition grown (c c' : contents) : Prop :=
  (exists news, c_movements c' = c_movements c ++ news)
  /\ (exists ids,
        map Product.product_id (c_products c')
        = map Product.product_id (c_products c) ++ ids)
  /\ (exists ids,
        map Location.location_id (c_locations c')
        = map Location.location_id (c_locations c) ++ ids).

(** Requests of every kind, some refused. *)
Definition some_requests : list request :=
  [ AddProduct POST (product_form_of a_new_product);
    AddProduct POST
      {| pf_product_id := py " P2 "; pf_name := py "Nut";
         pf_description := None |};
    AddProduct GET (product_form_of a_new_product);
    EditProduct POST (py "P1") a_product_edit;
    EditProduct POST (py "P9") a_product_edit;
    AddLocation POST (location_form_of a_new_location);
    EditLocation POST (py "L1") a_location_edit;
    AddMovement POST a_padded_transfer stamp;
    AddMovement POST a_blank_movement stamp;
    AddMovement POST a_receipt stamp ].

Definition some_contents : contents :=
  {| c_products := some_products;
     c_locations := some_locations;
     c_movements := some_movements |}.

(** Three appends, each with a location. *)
Definition some_appends : list (movement_form * str) :=
  [ (a_receipt, stamp); (a_padded_transfer, stamp); (a_transfer, stamp) ].

Definition another_product_edit : product_edit :=
  {| pe_name := py " Sprocket "; pe_description := Some (py "steel") |}.

Definition another_location_edit : location_edit :=
  {| le_name := py "Back yard"; le_address := None |}.

(** The example data directory after [P1] was renamed, and after [L1]
    was. *)
Definition product_edited_files : disk document :=
  save_data products_codec some_files PRODUCTS_FILE
    (update_first (fun p => str_eqb (Product.product_id p) (py "P1"))
                  (product_edited a_product_edit) some_products).

Definition location_edited_files : disk document :=
  save_data locations_codec some_files LOCATIONS_FILE
    (update_first (fun l => str_eqb (Location.location_id l) (py "L1"))
                  (location_edited a_location_edit) some_locations).

Definition product_edited_rows : list Row.t :=
  [ Row.mk (py "P1") (py "Gadget") (py "L2") (py "Annex") 9;
    Row.mk (py "P2") (py "Widget") (py "L2") (py "Annex") 2;
    Row.mk (py "P2") (py "Widget") (py "L1") (py "Yard") 3;
    Row.mk (py "P3") (py "anvil") (py "L1") (py "Yard") 7 ].

Definition location_edited_rows : list Row.t :=
  [ Row.mk (py "P1") (py "Widget") (py "L2") (py "Annex") 9;
    Row.mk (py "P2") (py "Widget") (py "L2") (py "Annex") 2;
    Row.mk (py "P2") (py "Widget") (py "L1") (py "Main yard") 3;
    Row.mk (py "P3") (py "anvil") (py "L1") (py "Main yard") 7 ].

(** * Properties *)

Unset Implicit Arguments.

(** ** Strings *)

Lemma str_eqb_eq (a b : str) : str_eqb a b = true <-> a = b.
Proof.
  unfold str_eqb. destruct (str_eq_dec a b); split; congruence.
Qed.

Lemma str_eqb_refl (a : str) : str_eqb a a = true.
Proof. now apply str_eqb_eq. Qed.

Lemma str_eqb_neq (a b : str) : str_eqb a b = false <-> a <> b.
Proof.
  unfold str_eqb. destruct (str_eq_dec a b); split; congruence.
Qed.

Lemma str_lt_irrefl (a : str) : str_lt a a = false.
Proof.
  induction a as [|x a IH]; simpl; trivial.
  now rewrite N.eqb_refl.
Qed.

Lemma str_lt_asym (a b : str) : str_lt a b = true -> str_lt b a = false.
Proof.
  revert b. induction a as [|x a IH]; intros [|y b]; simpl; trivial; try discriminate.
  destruct (N.eqb_spec x y) as [->|Hxy].
  - rewrite N.eqb_refl. apply IH.
  - destruct (N.eqb_spec y x) as [->|_]; [congruence|].
    rewrite N.ltb_lt. intros H. apply N.ltb_ge. lia.
Qed.

Lemma str_lt_trans (a b c : str) :
  str_lt a b = true -> str_lt b c = true -> str_lt a c = true.
Proof.
  revert b c.
  induction a as [|x a IH]; intros [|y b] [|z c]; simpl; trivial; try discriminate.
  destruct (N.eqb_spec x y) as [->|Hxy].
  - destruct (N.eqb_spec y z) as [->|Hyz]; [apply IH | trivial].
  - destruct (N.eqb_spec y z) as [->|Hyz].
    + destruct (N.eqb_spec x z); [congruence | trivial].
    + rewrite !N.ltb_lt. intros H1 H2.
      destruct (N.eqb_spec x z) as [->|_]; [lia | apply N.ltb_lt; lia].
Qed.

(** Neither below the other: the same string. *)
Lemma str_lt_total (a b : str) :
  str_lt a b = false -> str_lt b a = false -> a = b.
Proof.
  revert b. induction a as [|x a IH]; intros [|y b]; simpl; trivial; try discriminate.
  destruct (N.eqb_spec x y) as [->|Hxy].
  - rewrite N.eqb_refl. intros H1 H2. f_equal. now apply IH.
  - destruct (N.eqb_spec y x) as [->|_]; [congruence|].
    rewrite !N.ltb_ge. intros H1 H2. exfalso. apply Hxy. lia.
Qed.

(** ** [strip] *)

Lemma lstrip_blank (s : str) : lstrip s = [] <-> blank s = true.
Proof.
  induction s as [|c s IH]; simpl; [tauto|].
  destruct (isspace c); simpl; [exact IH|]. split; discriminate.
Qed.

Lemma blank_rev (s : str) : blank (rev s) = blank s.
Proof.
  unfold blank. induction s as [|c s IH]; simpl; trivial.
  rewrite forallb_app, IH. simpl. rewrite andb_true_r. apply andb_comm.
Qed.

Lemma lstrip_suffix (s : str) : exists u, s = u ++ lstrip s /\ blank u = true.
Proof.
  induction s as [|c s (u & Hu & Hb)]; simpl.
  - now exists [].
  - destruct (isspace c) eqn:E.
    + exists (c :: u). simpl. rewrite E, Hb. split; [now f_equal | trivial].
    + now exists [].
Qed.

(** What [lstrip] returns is empty or starts on a character that is not
    a space. *)
Lemma lstrip_head (s : str) :
  match lstrip s with [] => True | c :: _ => isspace c = false end.
Proof.
  induction s as [|c s IH]; simpl; trivial.
  destruct (isspace c) eqn:E; trivial.
Qed.

Lemma lstrip_snoc (s : str) (c : char) :
  isspace c = false -> lstrip (s ++ [c]) = lstrip s ++ [c].
Proof.
  intros Hc. induction s as [|x s IH]; simpl.
  - now rewrite Hc.
  - destruct (isspace x); trivial.
Qed.

Lemma strip_nil (s : str) : strip s = [] <-> blank s = true.
Proof.
  unfold strip, rstrip. split.
  - intros H. apply (f_equal (@rev _)) in H. rewrite rev_involutive in H.
    simpl in H. apply lstrip_blank in H. rewrite blank_rev in H.
    destruct (lstrip_suffix s) as (u & Hs & Hu). rewrite Hs.
    unfold blank in *. rewrite forallb_app. now rewrite Hu, H.
  - intros H. apply lstrip_blank in H. now rewrite H.
Qed.

(** A result of [strip] that is not empty starts on a character that is
    not a space. *)
Lemma strip_head (s : str) :
  match strip s with [] => True | c :: _ => isspace c = false end.
Proof.
  unfold strip, rstrip. pose proof (lstrip_head s) as H.
  destruct (lstrip s) as [|c r]; simpl; trivial.
  rewrite (lstrip_snoc (rev r) c H), rev_app_distr. simpl. exact H.
Qed.

Lemma strip_not_blank (s : str) : strip s <> [] -> blank (strip s) = false.
Proof.
  intros Hne. pose proof (strip_head s) as H.
  destruct (strip s) as [|c r]; [congruence|]. simpl. now rewrite H.
Qed.

Lemma truthy_strip (s : str) : truthy (strip s) = negb (blank s).
Proof.
  destruct (blank s) eqn:E.
  - apply strip_nil in E. now rewrite E.
  - destruct (strip s) eqn:Es; trivial.
    apply strip_nil in Es. congruence.
Qed.

(** ** [split] and the composite keys *)

Lemma split_not_nil (sep : char) (s : str) : split sep s <> [].
Proof.
  destruct s as [|c r]; simpl; [discriminate|].
  destruct (N.eqb c sep); [discriminate|].
  destruct (split sep r); discriminate.
Qed.

Section Split.
Variable sep : char.

Lemma split_free (s : str) : ~ In sep s -> split sep s = [s].
Proof.
  induction s as [|c r IH]; simpl; intros H; trivial.
  destruct (N.eqb_spec c sep) as [->|_]; [tauto|].
  rewrite IH by tauto. reflexivity.
Qed.

Lemma split_join (p l : str) :
  ~ In sep p -> ~ In sep l -> split sep (p ++ sep :: l) = [p; l].
Proof.
  intros Hp Hl. induction p as [|c r IH]; simpl.
  - rewrite N.eqb_refl. now rewrite split_free.
  - simpl in Hp. destruct (N.eqb_spec c sep) as [->|_]; [tauto|].
    rewrite IH by tauto. reflexivity.
Qed.

Lemma split_one (s l : str) : split sep s = [l] -> s = l /\ ~ In sep l.
Proof.
  revert l. induction s as [|c r IH]; simpl; intros l H.
  - injection H as <-. auto.
  - destruct (N.eqb_spec c sep) as [->|Hc].
    + injection H as _ H. now apply split_not_nil in H.
    + destruct (split sep r) as [|q qs] eqn:E; [now apply split_not_nil in E|].
      injection H as <- ->. destruct (IH q eq_refl) as [-> Hq].
      split; trivial. simpl. intros [H|H]; [congruence | tauto].
Qed.

Lemma split_two (k p l : str) :
  split sep k = [p; l] -> k = p ++ sep :: l /\ ~ In sep p /\ ~ In sep l.
Proof.
  revert p. induction k as [|c r IH]; simpl; intros p H.
  - discriminate.
  - destruct (N.eqb_spec c sep) as [->|Hc].
    + injection H as <- H. apply split_one in H as [-> Hl]. simpl. tauto.
    + destruct (split sep r) as [|q qs] eqn:E; [now apply split_not_nil in E|].
      injection H as <- ->. destruct (IH q eq_refl) as (-> & Hq & Hl).
      repeat split; trivial. simpl. intros [H|H]; [congruence | tauto].
Qed.

Lemma join_inj (p l p' l' : str) :
  ~ In sep p -> ~ In sep l -> p ++ sep :: l = p' ++ sep :: l' ->
  p = p' /\ l = l'.
Proof.
  intros Hp Hl. revert p' Hp.
  induction p as [|c r IH]; intros [|c' r'] Hp; simpl; intros H.
  - injection H as H. auto.
  - injection H as <- H. exfalso. apply Hl. rewrite H.
    apply in_or_app. right. now left.
  - injection H as -> _. simpl in Hp. tauto.
  - injection H as <- H. simpl in Hp. destruct (IH r') as [-> ->]; tauto.
Qed.
End Split.

Lemma split_fkey (p l : str) :
  pipe_free p -> pipe_free l -> split pipe (fkey p l) = [p; l].
Proof. apply split_join. Qed.

(** Unpacking into two names succeeds only on a key with exactly one
    separator, and gives back the two identifiers around it. *)
Lemma split_two_inv (k p l : str) :
  split pipe k = [p; l] -> k = fkey p l /\ pipe_free p /\ pipe_free l.
Proof. apply split_two. Qed.

(** Two pairs share a key only if they are the same pair, as soon as one
    of the pairs has no separator in it. *)
Lemma fkey_inj (p l p' l' : str) :
  pipe_free p -> pipe_free l -> fkey p l = fkey p' l' -> p = p' /\ l = l'.
Proof. apply join_inj. Qed.

(** ** Dictionaries *)

Section DictFacts.
Context {V : Type}.
Implicit Types (d : dict V) (k : str) (v : V).

Lemma dict_get_set_same d k v : dict_get (dict_set d k v) k = Some v.
Proof.
  induction d as [|[k' v'] r IH]; simpl.
  - now rewrite str_eqb_refl.
  - destruct (str_eqb k' k) eqn:E; simpl; now rewrite E.
Qed.

Lemma dict_get_set_other d k k' v :
  k' <> k -> dict_get (dict_set d k v) k' = dict_get d k'.
Proof.
  intros Hne. induction d as [|[k0 v0] r IH]; simpl.
  - destruct (str_eqb k k') eqn:E; trivial.
    apply str_eqb_eq in E. congruence.
  - destruct (str_eqb k0 k) eqn:E; simpl.
    + apply str_eqb_eq in E. subst k0.
      destruct (str_eqb k k') eqn:E'; trivial.
      apply str_eqb_eq in E'. congruence.
    + now rewrite IH.
Qed.

Lemma get_set_same d k v (dflt : V) : get (dict_set d k v) k dflt = v.
Proof. unfold get. now rewrite dict_get_set_same. Qed.

Lemma get_set_other d k k' v (dflt : V) :
  k' <> k -> get (dict_set d k v) k' dflt = get d k' dflt.
Proof. intros H. unfold get. now rewrite dict_get_set_other. Qed.

(** The keys of a dictionary after an assignment: the old ones, and the
    assigned one. *)
Lemma dict_set_keys d k v k' :
  In k' (map fst (dict_set d k v)) <-> k' = k \/ In k' (map fst d).
Proof.
  induction d as [|[k0 v0] r IH]; simpl.
  - intuition congruence.
  - destruct (str_eqb k0 k) eqn:E; simpl.
    + apply str_eqb_eq in E. subst. intuition congruence.
    + rewrite IH. tauto.
Qed.

Lemma dict_set_NoDup d k v :
  NoDup (map fst d) -> NoDup (map fst (dict_set d k v)).
Proof.
  induction d as [|[k0 v0] r IH]; simpl; intros H.
  - constructor; [tauto | constructor].
  - inversion H as [|? ? Hn Hr]; subst.
    destruct (str_eqb k0 k) eqn:E; simpl.
    + now constructor.
    + constructor; [|auto]. rewrite dict_set_keys. intros [->|Hin]; [|tauto].
      now rewrite str_eqb_refl in E.
Qed.

Lemma dict_get_In d k v : dict_get d k = Some v -> In (k, v) d.
Proof.
  induction d as [|[k0 v0] r IH]; simpl; [discriminate|].
  destruct (str_eqb k0 k) eqn:E.
  - apply str_eqb_eq in E. intros [= ->]. left. congruence.
  - auto.
Qed.

Lemma dict_In_get d k v :
  NoDup (map fst d) -> In (k, v) d -> dict_get d k = Some v.
Proof.
  induction d as [|[k0 v0] r IH]; simpl; [tauto|].
  intros H [Heq|Hin]; inversion H as [|? ? Hn Hr]; subst.
  - injection Heq as -> ->. now rewrite str_eqb_refl.
  - destruct (str_eqb k0 k) eqn:E; [|auto].
    apply str_eqb_eq in E. subst. exfalso. apply Hn.
    change k with (fst (k, v)). now apply in_map.
Qed.

Lemma dict_get_None d k : dict_get d k = None <-> ~ In k (map fst d).
Proof.
  induction d as [|[k0 v0] r IH]; simpl; [tauto|].
  destruct (str_eqb k0 k) eqn:E.
  - apply str_eqb_eq in E. subst. split; [discriminate | tauto].
  - apply str_eqb_neq in E. rewrite IH. tauto.
Qed.
End DictFacts.

(** ** The accumulation loop *)

Lemma fold_add_shift {A} (f : A -> Z) (l : list A) (a : Z) :
  fold_left (fun acc x => acc + f x) l a
  = a + fold_left (fun acc x => acc + f x) l 0.
Proof.
  revert a. induction l as [|x l IH]; intros a; simpl; [lia|].
  rewrite (IH (a + f x)), (IH (f x)). lia.
Qed.

(** Adding [q] under [key] is seen under [key] only. *)
Lemma get_bump (b : dict Z) (key k : str) (q : Z) :
  get (dict_set b key (get b key 0 + q)) k 0
  = get b k 0 + (if str_eqb key k then q else 0).
Proof.
  destruct (str_eqb key k) eqn:E.
  - apply str_eqb_eq in E. subst. now rewrite get_set_same.
  - apply str_eqb_neq in E. rewrite get_set_other by congruence. lia.
Qed.

Lemma get_balance_step (b : dict Z) (m : Movement.t) (k : str) :
  get (balance_step b m) k 0 = get b k 0 + key_delta k m.
Proof.
  unfold balance_step, key_delta, spells.
  destruct m as [i t from to pid q]; simpl.
  destruct from as [lf|], to as [lt|]; simpl;
    try destruct (truthy lf); try destruct (truthy lt); simpl;
    repeat (change (?x - q) with (x + - q); rewrite get_bump);
    repeat rewrite get_bump;
    repeat match goal with |- context [str_eqb ?a ?b] => destruct (str_eqb a b) end;
    lia.
Qed.

Lemma get_fold_balance (ms : list Movement.t) (b : dict Z) (k : str) :
  get (fold_left balance_step ms b) k 0 = get b k 0 + key_net ms k.
Proof.
  unfold key_net. revert b. induction ms as [|m ms IH]; intros b; simpl; [lia|].
  rewrite IH, get_balance_step, (fold_add_shift _ ms (key_delta k m)). lia.
Qed.

(** Each accumulator holds the net of what was booked under its key. *)
Lemma get_balance_of (ms : list Movement.t) (k : str) :
  get (balance_of ms) k 0 = key_net ms k.
Proof. unfold balance_of. now rewrite get_fold_balance. Qed.

Lemma balance_step_NoDup (b : dict Z) (m : Movement.t) :
  NoDup (map fst b) -> NoDup (map fst (balance_step b m)).
Proof.
  intros H. unfold balance_step.
  destruct (Movement.from_location m) as [lf|], (Movement.to_location m) as [lt|];
    try destruct (truthy lf); try destruct (truthy lt);
    repeat apply dict_set_NoDup; trivial.
Qed.

Lemma balance_of_NoDup (ms : list Movement.t) : NoDup (map fst (balance_of ms)).
Proof.
  unfold balance_of. assert (H : NoDup (map fst (@nil (str * Z)))) by constructor.
  revert H. generalize (@nil (str * Z)).
  induction ms as [|m ms IH]; intros b H; simpl; trivial.
  apply IH. now apply balance_step_NoDup.
Qed.

Lemma balance_step_keys (b : dict Z) (m : Movement.t) (k : str) :
  In k (map fst (balance_step b m)) -> In k (map fst b) \/ booked [m] k.
Proof.
  unfold balance_step, booked.
  destruct m as [i t from to pid q]; simpl.
  destruct from as [lf|], to as [lt|]; simpl;
    try destruct (truthy lf) eqn:Ef; try destruct (truthy lt) eqn:Et;
    repeat rewrite dict_set_keys; intros H;
    repeat match type of H with _ \/ _ => destruct H as [H|H] end;
    auto; right; eexists; eexists; (split; [left; reflexivity|]); simpl;
    eauto 6.
Qed.

Lemma balance_of_keys (ms : list Movement.t) (k : str) :
  In k (map fst (balance_of ms)) -> booked ms k.
Proof.
  unfold balance_of.
  enough (H : forall b, In k (map fst (fold_left balance_step ms b)) ->
                        In k (map fst b) \/ booked ms k).
  { intros Hin. destruct (H _ Hin) as [[]|]; trivial. }
  induction ms as [|m ms IH]; intros b; simpl; [tauto|].
  intros Hin. destruct (IH _ Hin) as [Hb|(m' & l & Hm & Hl)].
  - destruct (balance_step_keys _ _ _ Hb) as [|(m' & l & [<-|[]] & Hl)]; [tauto|].
    right. exists m, l. simpl. tauto.
  - right. exists m', l. simpl. tauto.
Qed.

(** ** Keys and pairs *)

Lemma spells_names (pid loc mpid : str) (x : option str) :
  (pipe_free pid /\ pipe_free loc) \/ (pipe_free mpid /\ pipe_free_loc x) ->
  spells mpid x (fkey pid loc) = str_eqb mpid pid && names x loc.
Proof.
  intros H. unfold spells, names. destruct x as [l|]; simpl.
  2: now rewrite andb_false_r.
  destruct (truthy l); simpl; [|now rewrite andb_false_r].
  destruct (str_eqb (fkey mpid l) (fkey pid loc)) eqn:E.
  - apply str_eqb_eq in E.
    assert (mpid = pid /\ l = loc) as [-> ->].
    { destruct H as [[Hp Hl]|[Hp Hl]].
      - symmetry in E. apply fkey_inj in E; intuition congruence.
      - apply fkey_inj in E; trivial. }
    now rewrite !str_eqb_refl.
  - destruct (str_eqb mpid pid) eqn:E1; trivial.
    destruct (str_eqb l loc) eqn:E2; trivial.
    apply str_eqb_eq in E1, E2. subst. now rewrite str_eqb_refl in E.
Qed.

Lemma key_delta_fkey (pid loc : str) (m : Movement.t) :
  (pipe_free pid /\ pipe_free loc) \/ pipe_free_movement m ->
  key_delta (fkey pid loc) m = delta pid loc m.
Proof.
  intros H. unfold key_delta, delta.
  rewrite !spells_names by (unfold pipe_free_movement in H; tauto).
  destruct (str_eqb (Movement.product_id m) pid); simpl; trivial.
Qed.

(** Under the key of a pair the balance holds the net of that pair, when
    the pair or the whole ledger is free of the separator. *)
Lemma key_net_fkey (ms : list Movement.t) (pid loc : str) :
  (pipe_free pid /\ pipe_free loc) \/ Forall pipe_free_movement ms ->
  key_net ms (fkey pid loc) = net ms pid loc.
Proof.
  intros H. unfold key_net, net. generalize 0.
  induction ms as [|m ms IH]; intros a; simpl; trivial.
  rewrite key_delta_fkey, IH; trivial.
  - destruct H as [H|H]; [tauto|]. right. now inversion H.
  - destruct H as [H|H]; [tauto|]. right. now inversion H.
Qed.

Lemma booked_pipe_free (ms : list Movement.t) (k : str) :
  Forall pipe_free_movement ms -> booked ms k ->
  exists pid loc, k = fkey pid loc /\ pipe_free pid /\ pipe_free loc.
Proof.
  intros Hms (m & l & Hm & _ & -> & Hl).
  rewrite Forall_forall in Hms. destruct (Hms m Hm) as (Hp & Hf & Ht).
  exists (Movement.product_id m), l. repeat split; trivial.
  destruct Hl as [Hl|Hl]; rewrite Hl in *; assumption.
Qed.

(** ** [mapM] *)

Lemma mapM_Ok {A B} (f : A -> result B) (l : list A) (ys : list B) :
  mapM f l = Ok ys <-> Forall2 (fun x y => f x = Ok y) l ys.
Proof.
  revert ys. induction l as [|x l IH]; intros ys; simpl.
  - split.
    + intros [= <-]. constructor.
    + intros H. now inversion H.
  - split.
    + destruct (f x) as [y|e] eqn:E; simpl; [|discriminate].
      destruct (mapM f l) as [zs|e] eqn:E'; simpl; [|discriminate].
      intros [= <-]. constructor; trivial. now apply IH.
    + intros H. inversion H as [|? y ? zs Hx Hl]; subst.
      rewrite Hx. simpl. apply IH in Hl. now rewrite Hl.
Qed.

Lemma mapM_total {A B} (f : A -> result B) (l : list A) :
  (forall x, In x l -> exists y, f x = Ok y) -> exists ys, mapM f l = Ok ys.
Proof.
  induction l as [|x l IH]; intros H; simpl.
  - now exists [].
  - destruct (H x) as [y Hy]; [now left|].
    destruct IH as [ys Hys]; [intros; apply H; now right|].
    exists (y :: ys). now rewrite Hy, Hys.
Qed.

Lemma Forall2_In_r {A B} (R : A -> B -> Prop) (l : list A) (ys : list B) (y : B) :
  Forall2 R l ys -> In y ys -> exists x, In x l /\ R x y.
Proof.
  induction 1 as [|x y' l ys Hxy _ IH]; simpl; [tauto|].
  intros [<-|Hin]; [eauto|]. destruct (IH Hin) as (x' & ? & ?). eauto.
Qed.

Lemma Forall2_In_l {A B} (R : A -> B -> Prop) (l : list A) (ys : list B) (x : A) :
  Forall2 R l ys -> In x l -> exists y, In y ys /\ R x y.
Proof.
  induction 1 as [|x' y l ys Hxy _ IH]; simpl; [tauto|].
  intros [<-|Hin]; [eauto|]. destruct (IH Hin) as (y' & ? & ?). eauto.
Qed.

Lemma Forall2_map_eq {A B C} (g : A -> C) (h : B -> C) (l : list A) (ys : list B) :
  Forall2 (fun x y => g x = h y) l ys -> map g l = map h ys.
Proof. induction 1; simpl; congruence. Qed.

Lemma NoDup_map_filter {A B} (f : A -> B) (test : A -> bool) (l : list A) :
  NoDup (map f l) -> NoDup (map f (filter test l)).
Proof.
  induction l as [|x l IH]; simpl; trivial.
  intros H. inversion H as [|? ? Hn Hl]; subst.
  destruct (test x); simpl; auto.
  constructor; auto. intros Hin. apply Hn.
  apply in_map_iff in Hin as (y & <- & Hy). apply filter_In in Hy as [Hy _].
  now apply in_map.
Qed.

(** ** The order of the sort keys *)

Lemma key_lt_asym (a b : str * str) : key_lt a b = true -> key_lt b a = false.
Proof.
  unfold key_lt. destruct a as [a1 a2], b as [b1 b2]; simpl.
  destruct (str_eqb a1 b1) eqn:E.
  - apply str_eqb_eq in E. subst. rewrite str_eqb_refl. apply str_lt_asym.
  - apply str_eqb_neq in E. destruct (str_eqb b1 a1) eqn:E'.
    + apply str_eqb_eq in E'. congruence.
    + apply str_lt_asym.
Qed.

Lemma key_le_trans (a b c : str * str) :
  key_le a b = true -> key_le b c = true -> key_le a c = true.
Proof.
  unfold key_le, key_lt. destruct a as [a1 a2], b as [b1 b2], c as [c1 c2]; simpl.
  rewrite !negb_true_iff.
  destruct (str_eqb b1 a1) eqn:Eba.
  - apply str_eqb_eq in Eba. subst b1.
    destruct (str_eqb c1 a1) eqn:Eca; trivial.
    apply str_eqb_eq in Eca. subst c1.
    intros H1 H2.
    destruct (str_lt c2 a2) eqn:E; trivial.
    destruct (str_lt b2 a2) eqn:E1; [discriminate|].
    destruct (str_lt a2 b2) eqn:E3.
    + now rewrite (str_lt_trans _ _ _ E E3) in H2.
    + now rewrite <- (str_lt_total _ _ E3 E1), E in H2.
  - apply str_eqb_neq in Eba. intros H1.
    assert (Hab : str_lt a1 b1 = true).
    { destruct (str_lt a1 b1) eqn:E; trivial.
      exfalso. apply Eba. symmetry. now apply str_lt_total. }
    destruct (str_eqb c1 b1) eqn:Ecb.
    + apply str_eqb_eq in Ecb. subst c1.
      destruct (str_eqb b1 a1) eqn:E; [apply str_eqb_eq in E; congruence|].
      trivial.
    + apply str_eqb_neq in Ecb. intros H2.
      assert (Hbc : str_lt b1 c1 = true).
      { destruct (str_lt b1 c1) eqn:E; trivial.
        exfalso. apply Ecb. symmetry. now apply str_lt_total. }
      pose proof (str_lt_trans _ _ _ Hab Hbc) as Hac.
      destruct (str_eqb c1 a1) eqn:E.
      * apply str_eqb_eq in E. subst. now rewrite str_lt_irrefl in Hac.
      * now apply str_lt_asym.
Qed.

(** [key_le] on the keys of two rows is the specification's order. *)
Lemma key_le_row_le (x y : Row.t) :
  key_le (row_key x) (row_key y) = true <-> row_le x y.
Proof.
  unfold key_le, key_lt, row_key, row_le, str_le; simpl.
  rewrite negb_true_iff.
  destruct (str_eqb (Row.product_name y) (Row.product_name x)) eqn:E.
  - apply str_eqb_eq in E. rewrite E, str_lt_irrefl, negb_true_iff.
    split; [auto | intros [H|[_ H]]; [discriminate | trivial]].
  - apply str_eqb_neq in E. split.
    + intros H. left.
      destruct (str_lt (Row.product_name x) (Row.product_name y)) eqn:E'; trivial.
      exfalso. apply E. now apply str_lt_total.
    + intros [H|[H _]]; [now apply str_lt_asym | congruence].
Qed.

(** ** The stable sort *)

Section SortFacts.
Context {A : Type}.
Variable key : A -> str * str.

Let le (x y : A) : Prop := key_le (key x) (key y) = true.

Lemma insert_perm (x : A) (l : list A) : Permutation (insert key x l) (x :: l).
Proof.
  induction l as [|y r IH]; simpl; [reflexivity|].
  destruct (key_lt (key y) (key x)); [|reflexivity].
  rewrite IH. apply perm_swap.
Qed.

Lemma sort_perm (l : list A) : Permutation (sort key l) l.
Proof.
  induction l as [|x l IH]; simpl; [reflexivity|].
  unfold sort in *. rewrite insert_perm. now constructor.
Qed.

Lemma insert_sorted (x : A) (l : list A) :
  StronglySorted le l -> StronglySorted le (insert key x l).
Proof.
  induction 1 as [|y r Hr IH Hy]; simpl.
  - repeat constructor.
  - destruct (key_lt (key y) (key x)) eqn:E.
    + constructor; trivial.
      apply Forall_forall. intros z Hz.
      apply (Permutation_in _ (insert_perm x r)) in Hz.
      destruct Hz as [<-|Hz].
      * unfold le, key_le. now rewrite (key_lt_asym _ _ E).
      * rewrite Forall_forall in Hy. now apply Hy.
    + assert (Hxy : le x y) by (unfold le, key_le; now rewrite E).
      constructor; [now constructor|].
      constructor; trivial.
      eapply Forall_impl; [|exact Hy].
      intros z Hz. exact (key_le_trans _ _ _ Hxy Hz).
Qed.

Lemma sort_sorted (l : list A) : StronglySorted le (sort key l).
Proof.
  induction l as [|x l IH]; simpl; [constructor|].
  now apply insert_sorted.
Qed.


End SortFacts.

(** ** The rows of the report *)

Lemma row_of_Ok (pd ld : dict str) (k : str) (q : Z) (x : Row.t) :
  row_of pd ld (k, q) = Ok x ->
  k = fkey (Row.product_id x) (Row.location_id x)
  /\ pipe_free (Row.product_id x) /\ pipe_free (Row.location_id x)
  /\ Row.qty x = q
  /\ Row.product_name x = get pd (Row.product_id x) Unknown
  /\ Row.location_name x = get ld (Row.location_id x) Unknown.
Proof.
  unfold row_of.
  destruct (split pipe k) as [|p [|l [|? ?]]] eqn:E; try discriminate.
  intros [= <-]. simpl. apply split_two_inv in E. tauto.
Qed.

Lemma row_of_fkey (pd ld : dict str) (p l : str) (q : Z) :
  pipe_free p -> pipe_free l ->
  row_of pd ld (fkey p l, q)
  = Ok (Row.mk p (get pd p Unknown) l (get ld l Unknown) q).
Proof. intros Hp Hl. unfold row_of. now rewrite split_fkey. Qed.

Lemma report_data_Ok (ms : list Movement.t) (ps : list Product.t)
    (ls : list Location.t) (rows : list Row.t) :
  report_data ms ps ls = Ok rows ->
  exists ys,
    Forall2 (fun item y => row_of (product_dict ps) (location_dict ls) item = Ok y)
            (filter (fun item => negb (snd item =? 0)) (balance_of ms)) ys
    /\ rows = sort row_key ys.
Proof.
  unfold report_data, items.
  destruct (mapM _ _) as [ys|e] eqn:E; simpl; [|discriminate].
  intros [= <-]. exists ys. split; trivial. now apply mapM_Ok.
Qed.

(** Whatever the ledger, a row that the report shows carries the net of
    its pair, which is not zero, and the names the registries give. *)
Lemma report_row_sound (ms : list Movement.t) (ps : list Product.t)
    (ls : list Location.t) (rows : list Row.t) (x : Row.t) :
  report_data ms ps ls = Ok rows -> In x rows ->
  Row.qty x = net ms (Row.product_id x) (Row.location_id x)
  /\ Row.qty x <> 0
  /\ Row.product_name x = get (product_dict ps) (Row.product_id x) Unknown
  /\ Row.location_name x = get (location_dict ls) (Row.location_id x) Unknown.
Proof.
  intros H Hx. apply report_data_Ok in H as (ys & Hys & ->).
  apply (Permutation_in _ (sort_perm row_key ys)) in Hx.
  destruct (Forall2_In_r _ _ _ _ Hys Hx) as ([k q] & Hin & Hrow).
  apply filter_In in Hin as [Hin Hq]. simpl in Hq.
  apply row_of_Ok in Hrow as (-> & Hp & Hl & Hqty & Hpn & Hln).
  apply dict_In_get in Hin; [|apply balance_of_NoDup].
  assert (Hget : get (balance_of ms)
                     (fkey (Row.product_id x) (Row.location_id x)) 0 = q)
    by (unfold get; now rewrite Hin).
  rewrite get_balance_of, key_net_fkey in Hget by tauto.
  rewrite Hqty. repeat split; trivial; try congruence.
  apply negb_true_iff, Z.eqb_neq in Hq. trivial.
Qed.

(** No pair has two rows. *)
Lemma report_pairs_NoDup (ms : list Movement.t) (ps : list Product.t)
    (ls : list Location.t) (rows : list Row.t) :
  report_data ms ps ls = Ok rows -> NoDup (map pair_of rows).
Proof.
  intros H. apply report_data_Ok in H as (ys & Hys & ->).
  apply (Permutation_NoDup (l := map pair_of ys)).
  { apply Permutation_map. symmetry. apply sort_perm. }
  apply (NoDup_map_inv (fun pl => fkey (fst pl) (snd pl))).
  rewrite map_map. simpl.
  erewrite <- (Forall2_map_eq fst (fun x => fkey (Row.product_id x) (Row.location_id x))).
  - apply NoDup_map_filter, balance_of_NoDup.
  - eapply Forall2_impl; [|exact Hys].
    intros [k q] y Hy. apply row_of_Ok in Hy. simpl. tauto.
Qed.

(** On a ledger whose identifiers are free of ['|'] the report never
    raises. *)
Lemma report_data_total (ms : list Movement.t) (ps : list Product.t)
    (ls : list Location.t) :
  Forall pipe_free_movement ms -> exists rows, report_data ms ps ls = Ok rows.
Proof.
  intros Hms. unfold report_data, items.
  destruct (mapM_total (row_of (product_dict ps) (location_dict ls))
              (filter (fun item => negb (snd item =? 0)) (balance_of ms)))
    as [ys Hys].
  - intros [k q] Hin. apply filter_In in Hin as [Hin _].
    assert (Hk : In k (map fst (balance_of ms)))
      by (change k with (fst (k, q)); now apply in_map).
    apply balance_of_keys in Hk.
    destruct (booked_pipe_free ms k Hms Hk) as (p & l & -> & Hp & Hl).
    rewrite row_of_fkey by trivial. eauto.
  - rewrite Hys. simpl. eauto.
Qed.

(** On such a ledger every pair with a net that is not zero has its row. *)
Lemma report_row_complete (ms : list Movement.t) (ps : list Product.t)
    (ls : list Location.t) (rows : list Row.t) (pid loc : str) :
  Forall pipe_free_movement ms ->
  report_data ms ps ls = Ok rows ->
  net ms pid loc <> 0 ->
  exists x, In x rows /\ pair_of x = (pid, loc) /\ Row.qty x = net ms pid loc.
Proof.
  intros Hms H Hnet. apply report_data_Ok in H as (ys & Hys & ->).
  pose proof (get_balance_of ms (fkey pid loc)) as Hget.
  rewrite key_net_fkey in Hget by tauto. unfold get in Hget.
  destruct (dict_get (balance_of ms) (fkey pid loc)) as [q|] eqn:E;
    [subst q | congruence].
  apply dict_get_In in E.
  assert (Hin : In (fkey pid loc, net ms pid loc)
                   (filter (fun item => negb (snd item =? 0)) (balance_of ms))).
  { apply filter_In. split; trivial. simpl. now apply negb_true_iff, Z.eqb_neq. }
  destruct (Forall2_In_l _ _ _ _ Hys Hin) as (x & Hx & Hrow).
  apply row_of_Ok in Hrow as (Hk & Hp & Hl & Hq & _).
  symmetry in Hk. apply fkey_inj in Hk as [Hp' Hl']; trivial.
  exists x. split.
  - apply (Permutation_in _ (Permutation_sym (sort_perm row_key ys))), Hx.
  - unfold pair_of. now rewrite Hp', Hl'.
Qed.

(** The report of a ledger whose identifiers are free of ['|']: it does
    not raise, no pair has two rows, and the triples of the rows are the
    pairs with their nets, those that are not zero. *)
Lemma report_data_spec (ms : list Movement.t) (ps : list Product.t)
    (ls : list Location.t) :
  Forall pipe_free_movement ms ->
  exists rows,
    report_data ms ps ls = Ok rows
    /\ NoDup (map pair_of rows)
    /\ forall pid loc q,
         In (pid, loc, q) (map triple rows) <-> q = net ms pid loc /\ q <> 0.
Proof.
  intros Hms. destruct (report_data_total ms ps ls Hms) as [rows H].
  exists rows. split; [trivial|]. split; [now apply report_pairs_NoDup with ms ps ls|].
  intros pid loc q. split.
  - intros Hin. apply in_map_iff in Hin as (x & [= <- <- <-] & Hx).
    destruct (report_row_sound ms ps ls rows x H Hx) as (? & ? & _). tauto.
  - intros [-> Hq].
    destruct (report_row_complete ms ps ls rows pid loc Hms H Hq)
      as (x & Hx & [= <- <-] & <-).
    apply in_map_iff. exists x. split; trivial.
Qed.

Lemma StronglySorted_impl {A} (R S : A -> A -> Prop) (l : list A) :
  (forall x y, R x y -> S x y) -> StronglySorted R l -> StronglySorted S l.
Proof.
  intros HRS. induction 1 as [|x l Hl IH Hx]; constructor; trivial.
  eapply Forall_impl; [|exact Hx]. auto.
Qed.

(** A movement from a location to that same location changes no
    accumulator. *)
Lemma key_delta_self (k : str) (m : Movement.t) :
  Movement.from_location m = Movement.to_location m -> key_delta k m = 0.
Proof. unfold key_delta. intros ->. lia. Qed.

Lemma key_net_self (ms : list Movement.t) (k : str) :
  Forall (fun m => Movement.from_location m = Movement.to_location m) ms ->
  key_net ms k = 0.
Proof.
  unfold key_net. induction 1 as [|m ms Hm _ IH]; simpl; trivial.
  now rewrite key_delta_self.
Qed.

(** ** The balance report: the claims *)

(** The specification's example, whatever the registries hold: a row of
    6 for [(P1, L1)] and a row of 4 for [(P1, L2)], and no other. *)
Lemma report_example (ps : list Product.t) (ls : list Location.t) :
  exists rows,
    report_data [receipt_P1_L1; transfer_P1_L1_L2] ps ls = Ok rows
    /\ Permutation (map triple rows)
         [(py "P1", py "L1", 6); (py "P1", py "L2", 4)].
Proof.
  unfold report_data.
  change (balance_of [receipt_P1_L1; transfer_P1_L1_L2])
    with [(py "P1|L1", 6); (py "P1|L2", 4)].
  change (py "P1|L1") with (fkey (py "P1") (py "L1")).
  change (py "P1|L2") with (fkey (py "P1") (py "L2")).
  unfold items. cbn [filter snd Z.eqb negb mapM bind].
  rewrite !row_of_fkey
    by (unfold pipe_free; vm_compute; intuition discriminate).
  cbn [bind]. eexists. split; [reflexivity|].
  rewrite (Permutation_map triple (sort_perm row_key _)). reflexivity.
Qed.

(** C1: the accumulators of the report are kept under the text
    [product_id|location], so two pairs that spell the same text share
    one accumulator.  On the ledger of [receipt_ab_c] and [receipt_a_bc]
    each of the pairs [("a|b", "c")] and [("a", "b|c")] has a net of 1,
    the loop books 2 under the single key ["a|b|c"], and the report
    raises [ValueError] when it takes the key apart. *)
Theorem report_merges_pairs_sharing_a_key :
  net [receipt_ab_c; receipt_a_bc] (py "a|b") (py "c") = 1
  /\ net [receipt_ab_c; receipt_a_bc] (py "a") (py "b|c") = 1
  /\ balance_of [receipt_ab_c; receipt_a_bc] = [(py "a|b|c", 2)]
  /\ report_data [receipt_ab_c; receipt_a_bc] [] [] = Raise ValueError.
Proof. repeat split; vm_compute; reflexivity. Qed.

(** C2: on the ledger of [receipt_ab_c] and [issue_a_bc] the pair
    [("a|b", "c")] has a net of 1 and the pair [("a", "b|c")] a net of
    -1; both are booked under the key ["a|b|c"], where they cancel, and
    the report comes out empty: neither pair has a row. *)
Theorem report_drops_pairs_sharing_a_key :
  net [receipt_ab_c; issue_a_bc] (py "a|b") (py "c") = 1
  /\ net [receipt_ab_c; issue_a_bc] (py "a") (py "b|c") = -1
  /\ report_data [receipt_ab_c; issue_a_bc] [] [] = Ok [].
Proof. repeat split; vm_compute; reflexivity. Qed.

(** C6: whatever the ledger and the registries, the rows the report
    returns are in ascending order of [(product_name, location_name)],
    strings compared code point by code point: every row is followed
    only by rows with a greater product name, or with the same product
    name and a location name that is not smaller. *)
Theorem report_sorted (ms : list Movement.t) (ps : list Product.t)
    (ls : list Location.t) (rows : list Row.t) :
  report_data ms ps ls = Ok rows -> StronglySorted row_le rows.
Proof.
  intros H. apply report_data_Ok in H as (ys & _ & ->).
  apply StronglySorted_impl
    with (R := fun x y => key_le (row_key x) (row_key y) = true).
  - intros x y. apply key_le_row_le.
  - apply sort_sorted.
Qed.

Lemma report_sorted_witness :
  StronglySorted row_le
    [ Row.mk (py "P1") (py "Widget") (py "L2") (py "Annex") 9;
      Row.mk (py "P2") (py "Widget") (py "L2") (py "Annex") 2;
      Row.mk (py "P2") (py "Widget") (py "L1") (py "Yard") 3;
      Row.mk (py "P3") (py "anvil") (py "L1") (py "Yard") 7 ].
Proof.
  apply (report_sorted some_movements some_products some_locations).
  vm_compute. reflexivity.
Defined.

(** C10: a movement whose [from_location] is its [to_location] adds
    zero to every pair and leaves every accumulator of the balance as
    it was; the report of a ledger made of such movements only has no
    row. *)
Theorem self_transfers_cancel (ms : list Movement.t) (ps : list Product.t)
    (ls : list Location.t) :
  Forall (fun m => Movement.from_location m = Movement.to_location m) ms ->
  (forall m, In m ms ->
     (forall pid loc, delta pid loc m = 0)
     /\ (forall b k, get (balance_step b m) k 0 = get b k 0))
  /\ (forall pid loc, net ms pid loc = 0)
  /\ report_data ms ps ls = Ok [].
Proof.
  intros Hms.
  assert (Hdelta : forall m, In m ms -> forall pid loc, delta pid loc m = 0).
  { intros m Hm pid loc. rewrite Forall_forall in Hms.
    unfold delta. rewrite (Hms m Hm).
    destruct (str_eqb _ _); lia. }
  split; [|split].
  - intros m Hm. split; [now apply Hdelta|].
    intros b k. rewrite get_balance_step, key_delta_self; [lia|].
    rewrite Forall_forall in Hms. now apply Hms.
  - intros pid loc. unfold net. clear Hms.
    induction ms as [|m r IH]; simpl; trivial.
    rewrite Hdelta by now left. apply IH. intros; apply Hdelta; now right.
  - unfold report_data, items.
    assert (Hz : forall item, In item (balance_of ms) -> snd item = 0).
    { intros [k v] Hin. simpl.
      apply dict_In_get in Hin; [|apply balance_of_NoDup].
      pose proof (get_balance_of ms k) as Hg. unfold get in Hg.
      rewrite Hin, key_net_self in Hg; trivial. }
    revert Hz. generalize (balance_of ms) as b.
    induction b as [|item b IH]; intros Hz; simpl; trivial.
    rewrite (Hz item) by now left. simpl. apply IH.
    intros; apply Hz; now right.
Qed.

Lemma self_transfers_cancel_witness :
  report_data self_transfers some_products some_locations = Ok [].
Proof.
  apply (self_transfers_cancel self_transfers some_products some_locations).
  repeat constructor.
Defined.

(** ** The flat-record store *)

Lemma filename_eqb_eq (f g : filename) : filename_eqb f g = true <-> f = g.
Proof. destruct f, g; simpl; split; congruence. Qed.

Lemma filename_eqb_refl (f : filename) : filename_eqb f f = true.
Proof. now destruct f. Qed.

Section StoreFacts.
Context {text A : Type} (c : codec text (list A)).

Lemma load_save_same (fs : disk text) (f : filename) (xs : list A) :
  round_trips c -> load_data c (save_data c fs f xs) f = Ok xs.
Proof.
  intros Hc. unfold load_data, save_data.
  now rewrite filename_eqb_refl, Hc.
Qed.

(** Saving one file leaves the others as they are. *)
Lemma save_other (fs : disk text) (f g : filename) (xs : list A) :
  g <> f -> save_data c fs f xs g = fs g.
Proof.
  intros Hne. unfold save_data.
  destruct (filename_eqb g f) eqn:E; trivial.
  apply filename_eqb_eq in E. congruence.
Qed.

Lemma load_save_other {B} (c' : codec text (list B)) (fs : disk text)
    (f g : filename) (xs : list A) :
  g <> f -> load_data c' (save_data c fs f xs) g = load_data c' fs g.
Proof. intros Hne. unfold load_data. now rewrite save_other. Qed.

(** C8: when [json.load] reads back what [json.dump] wrote, the store
    round-trips.  [load_data] gives the empty sequence for a file that
    does not exist; loading after [save_data] gives the sequence that
    was saved; and saving what was loaded leaves a file that loads to
    the same sequence, whether or not the file existed before.  A save
    replaces the whole file and touches no other file. *)
Theorem store_round_trip (fs : disk text) (f : filename) :
  round_trips c ->
  (fs f = None -> load_data c fs f = Ok [])
  /\ (forall xs, load_data c (save_data c fs f xs) f = Ok xs)
  /\ (forall xs, load_data c fs f = Ok xs ->
                 load_data c (save_data c fs f xs) f = load_data c fs f)
  /\ (forall xs ys, save_data c (save_data c fs f xs) f ys f
                    = save_data c fs f ys f)
  /\ (forall xs g, g <> f -> save_data c fs f xs g = fs g).
Proof.
  intros Hc. repeat split.
  - intros H. unfold load_data. now rewrite H.
  - intros xs. now apply load_save_same.
  - intros xs H. rewrite H. now apply load_save_same.
  - intros xs ys. unfold save_data. now rewrite filename_eqb_refl.
  - intros xs g. apply save_other.
Qed.
End StoreFacts.

Lemma products_codec_round_trips : round_trips products_codec.
Proof. intros l. reflexivity. Qed.

Lemma locations_codec_round_trips : round_trips locations_codec.
Proof. intros l. reflexivity. Qed.

Lemma movements_codec_round_trips : round_trips movements_codec.
Proof. intros l. reflexivity. Qed.

Lemma store_round_trip_witness :
  load_data products_codec no_files PRODUCTS_FILE = Ok []
  /\ load_data products_codec
       (save_data products_codec some_files PRODUCTS_FILE some_products)
       PRODUCTS_FILE
     = load_data products_codec some_files PRODUCTS_FILE.
Proof.
  split.
  - apply (store_round_trip products_codec no_files PRODUCTS_FILE).
    + intros l. reflexivity.
    + reflexivity.
  - apply (store_round_trip products_codec some_files PRODUCTS_FILE).
    + intros l. reflexivity.
    + reflexivity.
Defined.

(** The report of a data directory is the report of what its three
    files hold. *)
Lemma report_loaded {text : Type} (cp : codec text (list Product.t))
    (cl : codec text (list Location.t)) (cm : codec text (list Movement.t))
    (fs : disk text) (ms : list Movement.t) (ps : list Product.t)
    (ls : list Location.t) :
  load_data cm fs MOVEMENTS_FILE = Ok ms ->
  load_data cp fs PRODUCTS_FILE = Ok ps ->
  load_data cl fs LOCATIONS_FILE = Ok ls ->
  report cp cl cm fs = report_data ms ps ls.
Proof. unfold report. intros -> -> ->. reflexivity. Qed.

(** ** The registries *)

Lemma existsb_ident {R} (ident : R -> str) (id : str) (rs : list R) :
  existsb (fun r => str_eqb (ident r) id) rs = true <-> In id (map ident rs).
Proof.
  rewrite existsb_exists, in_map_iff.
  split; intros (r & H1 & H2); exists r.
  - apply str_eqb_eq in H2. tauto.
  - split; [tauto|]. now apply str_eqb_eq.
Qed.

Lemma existsb_ident_false {R} (ident : R -> str) (id : str) (rs : list R) :
  existsb (fun r => str_eqb (ident r) id) rs = false <-> ~ In id (map ident rs).
Proof.
  rewrite <- existsb_ident. destruct (existsb _ rs); split; congruence.
Qed.

(** The contract of [add] for a sequence of forms follows from its
    contract for one. *)
Lemma add_sequence {text F R : Type} (ident : R -> str) (stored : F -> R)
    (list_ : disk text -> result (list R))
    (add : F -> disk text -> result (response * disk text))
    (added : response) :
  (forall fs rs f, list_ fs = Ok rs -> ~ In (ident (stored f)) (map ident rs) ->
     exists fs', add f fs = Ok (added, fs') /\ list_ fs' = Ok (rs ++ [stored f])) ->
  forall news fs rs,
    list_ fs = Ok rs ->
    NoDup (map ident (map stored news)) ->
    (forall f, In f news -> ~ In (ident (stored f)) (map ident rs)) ->
    exists fs',
      serve (map add news) fs = Ok (map (fun _ => added) news, fs')
      /\ list_ fs' = Ok (rs ++ map stored news).
Proof.
  intros Hadd news. induction news as [|f news IH]; intros fs rs Hrs Hnd Hnew.
  - exists fs. simpl. now rewrite app_nil_r.
  - simpl in Hnd. inversion Hnd as [|? ? Hnf Hnd']; subst.
    destruct (Hadd fs rs f Hrs) as (fs1 & H1 & Hl1).
    { apply Hnew. now left. }
    destruct (IH fs1 (rs ++ [stored f]) Hl1 Hnd') as (fs2 & H2 & Hl2).
    { intros f' Hf'. rewrite map_app, in_app_iff. simpl.
      intros [Hin|[Heq|[]]].
      - apply (Hnew f'); [now right | trivial].
      - apply Hnf. rewrite Heq. apply in_map. now apply in_map. }
    exists fs2. simpl. rewrite H1. simpl. rewrite H2. simpl.
    split; trivial. now rewrite <- app_assoc in Hl2.
Qed.

Lemma strip_trimmed_product (r : Product.t) :
  trimmed_product r -> product_of_form (product_form_of r) = r.
Proof.
  intros (H1 & H2 & H3). destruct r as [i n d].
  unfold product_of_form, trimmed in *. simpl in *. now rewrite H1, H2, H3.
Qed.

Lemma strip_trimmed_location (r : Location.t) :
  trimmed_location r -> location_of_form (location_form_of r) = r.
Proof.
  intros (H1 & H2 & H3). destruct r as [i n a].
  unfold location_of_form, trimmed in *. simpl in *. now rewrite H1, H2, H3.
Qed.

Section RegistryFacts.
Context {text : Type}.
Variable cp : codec text (list Product.t).
Variable cl : codec text (list Location.t).

Lemma add_product_post (form : product_form) (fs : disk text)
    (ps : list Product.t) :
  products cp fs = Ok ps ->
  add_product cp POST form fs
  = if existsb (fun p => str_eqb (Product.product_id p)
                                 (Product.product_id (product_of_form form))) ps
    then Ok (DuplicateProductId, fs)
    else Ok (ProductAdded,
             save_data cp fs PRODUCTS_FILE (ps ++ [product_of_form form])).
Proof. unfold products, add_product. intros ->. reflexivity. Qed.

Lemma add_location_post (form : location_form) (fs : disk text)
    (ls : list Location.t) :
  locations cl fs = Ok ls ->
  add_location cl POST form fs
  = if existsb (fun l => str_eqb (Location.location_id l)
                                 (Location.location_id (location_of_form form))) ls
    then Ok (DuplicateLocationId, fs)
    else Ok (LocationAdded,
             save_data cl fs LOCATIONS_FILE (ls ++ [location_of_form form])).
Proof. unfold locations, add_location. intros ->. reflexivity. Qed.

(** C5: when [json.load] reads back what [json.dump] wrote, [add] of
    either registry fails with the duplicate-identifier message exactly
    when a stored record has the identifier of the record to store, and
    then leaves the data directory as it is; otherwise it appends the
    record at the end of the saved list.  Forms with distinct
    identifiers, added in turn, are all accepted and their records are
    afterwards listed after the old ones in the order of the adds.  The
    record to store is the form with its fields stripped: the record as
    given, identifier included, when its fields are already trimmed. *)
Theorem registry_add :
  round_trips cp -> round_trips cl ->
  add_contract Product.product_id product_of_form (products cp)
    (add_product cp POST) PRODUCTS_FILE DuplicateProductId ProductAdded
  /\ add_contract Location.location_id location_of_form (locations cl)
       (add_location cl POST) LOCATIONS_FILE DuplicateLocationId LocationAdded
  /\ (forall r, trimmed_product r -> product_of_form (product_form_of r) = r)
  /\ (forall r, trimmed_location r -> location_of_form (location_form_of r) = r).
Proof.
  intros Hcp Hcl. split; [|split; [|split]].
  - assert (Hone : forall fs rs f,
              products cp fs = Ok rs ->
              ~ In (Product.product_id (product_of_form f))
                   (map Product.product_id rs) ->
              exists fs',
                add_product cp POST f fs = Ok (ProductAdded, fs')
                /\ products cp fs' = Ok (rs ++ [product_of_form f])
                /\ forall g, g <> PRODUCTS_FILE -> fs' g = fs g).
    { intros fs rs f Hrs Hnew. rewrite (add_product_post f fs rs Hrs).
      apply existsb_ident_false in Hnew. rewrite Hnew.
      eexists. split; [reflexivity|]. split.
      - now apply load_save_same.
      - intros g Hg. now apply save_other. }
    intros fs rs Hrs. split; [|split; [|split]].
    + intros f Hin. rewrite (add_product_post f fs rs Hrs).
      apply (existsb_ident Product.product_id) in Hin. now rewrite Hin.
    + intros f fs'. rewrite (add_product_post f fs rs Hrs).
      destruct (existsb _ rs) eqn:E; [|discriminate].
      intros _. now apply (existsb_ident Product.product_id).
    + intros f Hnew. now apply Hone.
    + intros news Hnd Hnew.
      apply (add_sequence Product.product_id product_of_form (products cp)
               (add_product cp POST) ProductAdded); trivial.
      intros fs0 rs0 f H0 Hn.
      destruct (Hone fs0 rs0 f H0 Hn) as (fs1 & ? & ? & _). eauto.
  - assert (Hone : forall fs rs f,
              locations cl fs = Ok rs ->
              ~ In (Location.location_id (location_of_form f))
                   (map Location.location_id rs) ->
              exists fs',
                add_location cl POST f fs = Ok (LocationAdded, fs')
                /\ locations cl fs' = Ok (rs ++ [location_of_form f])
                /\ forall g, g <> LOCATIONS_FILE -> fs' g = fs g).
    { intros fs rs f Hrs Hnew. rewrite (add_location_post f fs rs Hrs).
      apply existsb_ident_false in Hnew. rewrite Hnew.
      eexists. split; [reflexivity|]. split.
      - now apply load_save_same.
      - intros g Hg. now apply save_other. }
    intros fs rs Hrs. split; [|split; [|split]].
    + intros f Hin. rewrite (add_location_post f fs rs Hrs).
      apply (existsb_ident Location.location_id) in Hin. now rewrite Hin.
    + intros f fs'. rewrite (add_location_post f fs rs Hrs).
      destruct (existsb _ rs) eqn:E; [|discriminate].
      intros _. now apply (existsb_ident Location.location_id).
    + intros f Hnew. now apply Hone.
    + intros news Hnd Hnew.
      apply (add_sequence Location.location_id location_of_form (locations cl)
               (add_location cl POST) LocationAdded); trivial.
      intros fs0 rs0 f H0 Hn.
      destruct (Hone fs0 rs0 f H0 Hn) as (fs1 & ? & ? & _). eauto.
  - apply strip_trimmed_product.
  - apply strip_trimmed_location.
Qed.
End RegistryFacts.

(** [find] and [update_first] meet the same element: the first one that
    passes the test. *)
Lemma find_update_first {A} (test : A -> bool) (f : A -> A) (l : list A) :
  match find test l with
  | None => Forall (fun x => test x = false) l
  | Some r =>
      exists before after,
        l = before ++ r :: after
        /\ test r = true
        /\ Forall (fun x => test x = false) before
        /\ update_first test f l = before ++ f r :: after
  end.
Proof.
  induction l as [|x l IH]; simpl; [constructor|].
  destruct (test x) eqn:E.
  - exists [], l. simpl. auto.
  - destruct (find test l) as [r|].
    + destruct IH as (before & after & -> & Hr & Hb & Hu).
      exists (x :: before), after. simpl. rewrite Hu. auto.
    + now constructor.
Qed.

Lemma Forall_test_ident {R} (ident : R -> str) (id : str) (rs : list R) :
  Forall (fun r => str_eqb (ident r) id = false) rs <-> ~ In id (map ident rs).
Proof.
  rewrite Forall_forall, in_map_iff. split.
  - intros H (r & <- & Hr). specialize (H r Hr). now rewrite str_eqb_refl in H.
  - intros H r Hr. apply str_eqb_neq. intros Heq. apply H. eauto.
Qed.

Lemma set_trimmed_product (e : product_edit) (p : Product.t) :
  trimmed_product_edit e -> product_edited e p = set_product e p.
Proof.
  intros [H1 H2]. unfold product_edited, set_product, trimmed in *.
  now rewrite H1, H2.
Qed.

Lemma set_trimmed_location (e : location_edit) (l : Location.t) :
  trimmed_location_edit e -> location_edited e l = set_location e l.
Proof.
  intros [H1 H2]. unfold location_edited, set_location, trimmed in *.
  now rewrite H1, H2.
Qed.

Section UpdateFacts.
Context {text : Type}.
Variable cp : codec text (list Product.t).
Variable cl : codec text (list Location.t).

Lemma edit_product_post (id : str) (e : product_edit) (fs : disk text)
    (ps : list Product.t) :
  products cp fs = Ok ps ->
  edit_product cp POST id e fs
  = match find (fun p => str_eqb (Product.product_id p) id) ps with
    | None => Ok (ProductNotFound, fs)
    | Some _ =>
        Ok (ProductUpdated,
            save_data cp fs PRODUCTS_FILE
              (update_first (fun p => str_eqb (Product.product_id p) id)
                            (product_edited e) ps))
    end.
Proof. unfold products, edit_product. intros ->. reflexivity. Qed.

Lemma edit_location_post (id : str) (e : location_edit) (fs : disk text)
    (ls : list Location.t) :
  locations cl fs = Ok ls ->
  edit_location cl POST id e fs
  = match find (fun l => str_eqb (Location.location_id l) id) ls with
    | None => Ok (LocationNotFound, fs)
    | Some _ =>
        Ok (LocationUpdated,
            save_data cl fs LOCATIONS_FILE
              (update_first (fun l => str_eqb (Location.location_id l) id)
                            (location_edited e) ls))
    end.
Proof. unfold locations, edit_location. intros ->. reflexivity. Qed.

(** C7: when [json.load] reads back what [json.dump] wrote, [update] of
    either registry answers the not-found message for an identifier that
    no stored record has, and leaves the data directory as it is.  For
    an identifier that is stored, it changes the first record with that
    identifier, and only its name and description, or name and address;
    the identifier of the record stays, and the records before and
    after it, and their order, are as they were.  The new values are the
    fields of the form, stripped: the values as given when they are
    already trimmed. *)
Theorem registry_update :
  round_trips cp -> round_trips cl ->
  update_contract Product.product_id product_edited
    (products cp) (edit_product cp POST)
    PRODUCTS_FILE ProductNotFound ProductUpdated
  /\ update_contract Location.location_id location_edited
       (locations cl) (edit_location cl POST)
       LOCATIONS_FILE LocationNotFound LocationUpdated
  /\ (forall e p, trimmed_product_edit e -> product_edited e p = set_product e p)
  /\ (forall e l, trimmed_location_edit e ->
                  location_edited e l = set_location e l).
Proof.
  intros Hcp Hcl. split; [|split; [|split]].
  - intros fs rs id e Hrs.
    rewrite (edit_product_post id e fs rs Hrs).
    pose proof (find_update_first (fun p => str_eqb (Product.product_id p) id)
                  (product_edited e) rs) as H.
    destruct (find _ rs) as [r|].
    + destruct H as (before & after & -> & Hr & Hb & Hu). split.
      * intros Hn. exfalso. apply Hn. apply str_eqb_eq in Hr.
        rewrite map_app, in_app_iff. right. now left.
      * intros _. eexists. exists before, r, after.
        apply str_eqb_eq in Hr. apply Forall_test_ident in Hb.
        repeat split; trivial.
        -- unfold products. now rewrite load_save_same, Hu.
        -- intros g Hg. now apply save_other.
    + apply Forall_test_ident in H. split; [trivial | tauto].
  - intros fs rs id e Hrs.
    rewrite (edit_location_post id e fs rs Hrs).
    pose proof (find_update_first (fun l => str_eqb (Location.location_id l) id)
                  (location_edited e) rs) as H.
    destruct (find _ rs) as [r|].
    + destruct H as (before & after & -> & Hr & Hb & Hu). split.
      * intros Hn. exfalso. apply Hn. apply str_eqb_eq in Hr.
        rewrite map_app, in_app_iff. right. now left.
      * intros _. eexists. exists before, r, after.
        apply str_eqb_eq in Hr. apply Forall_test_ident in Hb.
        repeat split; trivial.
        -- unfold locations. now rewrite load_save_same, Hu.
        -- intros g Hg. now apply save_other.
    + apply Forall_test_ident in H. split; [trivial | tauto].
  - apply set_trimmed_product.
  - apply set_trimmed_location.
Qed.
End UpdateFacts.

(** ** The movement ledger *)

Lemma absent_blank (x : option str) : absent x = blank (form_get x).
Proof. now destruct x. Qed.

Lemma present_location_field (x : option str) :
  present (location_field x) = negb (absent x).
Proof.
  unfold location_field, none_if_empty. rewrite absent_blank.
  rewrite <- truthy_strip. now destruct (truthy (strip (form_get x))) eqn:E.
Qed.

Lemma location_field_absent (x : option str) :
  absent x = true -> location_field x = None.
Proof.
  rewrite absent_blank. intros H. apply strip_nil in H.
  unfold location_field. now rewrite H.
Qed.

Lemma location_field_stored (x : option str) :
  absent x = false ->
  location_field x = Some (strip (form_get x))
  /\ blank (strip (form_get x)) = false.
Proof.
  rewrite absent_blank. intros H. unfold location_field, none_if_empty.
  rewrite truthy_strip, H. simpl. split; trivial.
  apply strip_not_blank. intros E. apply strip_nil in E. congruence.
Qed.

Lemma location_field_no_blank (x : option str) :
  no_blank_location (location_field x).
Proof.
  destruct (absent x) eqn:E.
  - now rewrite location_field_absent.
  - destruct (location_field_stored x E) as [-> H]. exact H.
Qed.

(** On a trimmed field the normalisation only turns the empty string
    into [None]. *)
Lemma location_field_trimmed (x : option str) :
  trimmed (form_get x) -> location_field x = given x.
Proof.
  unfold trimmed, location_field, given, none_if_empty. intros ->.
  destruct x as [[|c s]|]; reflexivity.
Qed.

Lemma fold_max_spec (r : list Z) (x : Z) :
  is_max (fold_left Z.max r x) (x :: r).
Proof.
  unfold is_max. revert x. induction r as [|y r IH]; intros x; simpl.
  - split; [now left|]. repeat constructor. lia.
  - destruct (IH (Z.max x y)) as [Hin Hle]. split.
    + destruct Hin as [Hin|Hin]; [|now right; right].
      rewrite <- Hin. destruct (Z.max_spec x y) as [[_ ->]|[_ ->]]; auto.
    + inversion Hle as [|? ? H1 H2]; subst.
      constructor; [lia|]. constructor; [lia | trivial].
Qed.

Lemma max_default_spec (l : list Z) (d : Z) :
  (l = [] -> max_default l d = d)
  /\ (l <> [] -> is_max (max_default l d) l).
Proof.
  destruct l as [|x r]; simpl; split; try congruence.
  intros _. apply fold_max_spec.
Qed.

Lemma StronglySorted_snoc (l : list Z) (n : Z) :
  StronglySorted Z.lt l -> Forall (fun i => i < n) l ->
  StronglySorted Z.lt (l ++ [n]).
Proof.
  induction 1 as [|x l Hl IH Hx]; intros Hn; simpl.
  - repeat constructor.
  - inversion Hn as [|? ? Hxn Hln]; subst.
    constructor; [auto|]. apply Forall_app. split; trivial.
    now repeat constructor.
Qed.

Section LedgerFacts.
Context {text : Type}.
Variable cp : codec text (list Product.t).
Variable cl : codec text (list Location.t).
Variable cm : codec text (list Movement.t).

Lemma add_movement_post (form : movement_form) (now : str) (fs : disk text)
    (ps : list Product.t) (ls : list Location.t) (ms : list Movement.t) :
  load_data cp fs PRODUCTS_FILE = Ok ps ->
  load_data cl fs LOCATIONS_FILE = Ok ls ->
  load_data cm fs MOVEMENTS_FILE = Ok ms ->
  add_movement cp cl cm POST form now fs
  = if absent (mf_from_location form) && absent (mf_to_location form)
    then Ok (InvalidMovement, fs)
    else Ok (MovementAdded,
             save_data cm fs MOVEMENTS_FILE
               (ms ++ [Movement.mk
                         (max_default (map Movement.movement_id ms) 0 + 1) now
                         (location_field (mf_from_location form))
                         (location_field (mf_to_location form))
                         (mf_product_id form) (mf_qty form)])).
Proof.
  intros Hps Hls Hms. unfold add_movement. rewrite Hps, Hls, Hms. simpl.
  fold (location_field (mf_from_location form)).
  fold (location_field (mf_to_location form)).
  rewrite !present_location_field, !negb_involutive. reflexivity.
Qed.

(** The identifier given to a new movement. *)
Lemma next_id_spec (ms : list Movement.t) :
  let ids := map Movement.movement_id ms in
  let n := max_default ids 0 + 1 in
  (ms = [] -> n = 1)
  /\ (ms <> [] -> is_max (n - 1) ids)
  /\ Forall (fun i => i < n) ids.
Proof.
  intros ids n. destruct (max_default_spec ids 0) as [H0 H1].
  split; [|split].
  - intros ->. reflexivity.
  - intros Hne. replace (n - 1) with (max_default ids 0) by (unfold n; lia).
    apply H1. unfold ids. now destruct ms.
  - destruct ms as [|m ms']; [constructor|].
    destruct H1 as [_ H1]; [discriminate|].
    eapply Forall_impl; [|exact H1]. intros i Hi. unfold n. simpl in *. lia.
Qed.
End LedgerFacts.

Section LedgerClaims.
Context {text : Type}.
Variable cp : codec text (list Product.t).
Variable cl : codec text (list Location.t).
Variable cm : codec text (list Movement.t).
Variables (fs : disk text) (ps : list Product.t) (ls : list Location.t)
          (ms : list Movement.t).
Hypothesis Hcm : round_trips cm.
Hypothesis Hps : load_data cp fs PRODUCTS_FILE = Ok ps.
Hypothesis Hls : load_data cl fs LOCATIONS_FILE = Ok ls.
Hypothesis Hms : load_data cm fs MOVEMENTS_FILE = Ok ms.

(** C3: on a data directory whose three files load, a movement with a
    location that is not blank is appended with [movement_id] 1 when the
    ledger is empty, and otherwise with the greatest identifier of the
    ledger plus 1, whether or not the identifiers are contiguous.  The
    new identifier is above every identifier of the ledger; so a ledger
    with strictly increasing identifiers stays strictly increasing, and
    one without repeated identifiers stays without. *)
Theorem next_movement_id (form : movement_form) (now : str) :
  absent (mf_from_location form) = false
  \/ absent (mf_to_location form) = false ->
  exists fs' r,
    add_movement cp cl cm POST form now fs = Ok (MovementAdded, fs')
    /\ load_data cm fs' MOVEMENTS_FILE = Ok (ms ++ [r])
    /\ (ms = [] -> Movement.movement_id r = 1)
    /\ (ms <> [] ->
        is_max (Movement.movement_id r - 1) (map Movement.movement_id ms))
    /\ Forall (fun i => i < Movement.movement_id r)
              (map Movement.movement_id ms)
    /\ (increasing_ids ms -> increasing_ids (ms ++ [r]))
    /\ (NoDup (map Movement.movement_id ms) ->
        NoDup (map Movement.movement_id (ms ++ [r]))).
Proof.
  intros Hvalid. rewrite (add_movement_post cp cl cm form now fs ps ls ms Hps Hls Hms).
  assert (E : absent (mf_from_location form) && absent (mf_to_location form) = false).
  { destruct Hvalid as [-> | ->]; [reflexivity | apply andb_false_r]. }
  rewrite E. destruct (next_id_spec ms) as (H1 & H2 & H3).
  eexists. eexists. split; [reflexivity|]. split; [now apply load_save_same|].
  simpl. split; [exact H1|]. split; [exact H2|]. split; [exact H3|]. split.
  - unfold increasing_ids. rewrite map_app. simpl. intros Hs.
    now apply StronglySorted_snoc.
  - rewrite map_app. simpl. intros Hnd.
    apply NoDup_app; trivial.
    + repeat constructor. intros [].
    + intros i Hin [<-|[]]. rewrite Forall_forall in H3.
      specialize (H3 _ Hin). simpl in H3. lia.
Qed.

(** C4: on a data directory whose three files load, appending a
    movement fails with the invalid-movement message exactly when both
    location fields are missing, empty or blank, and then leaves the
    data directory as it is.  With one of the two given it succeeds: the
    ledger is the old one followed by one record, which carries the
    product, the quantity and the two locations of the form, the
    locations stripped; the other files are as before.  On a field that
    is already trimmed, missing, empty or blank means missing or empty,
    and the location stored is the one given, [None] for an empty
    field. *)
Theorem ledger_append (form : movement_form) (now : str) :
  (absent (mf_from_location form) = true
   /\ absent (mf_to_location form) = true ->
   add_movement cp cl cm POST form now fs = Ok (InvalidMovement, fs))
  /\ (forall fs',
        add_movement cp cl cm POST form now fs = Ok (InvalidMovement, fs') ->
        absent (mf_from_location form) = true
        /\ absent (mf_to_location form) = true)
  /\ (absent (mf_from_location form) = false
      \/ absent (mf_to_location form) = false ->
      exists fs' r,
        add_movement cp cl cm POST form now fs = Ok (MovementAdded, fs')
        /\ load_data cm fs' MOVEMENTS_FILE = Ok (ms ++ [r])
        /\ Movement.from_location r = location_field (mf_from_location form)
        /\ Movement.to_location r = location_field (mf_to_location form)
        /\ Movement.product_id r = mf_product_id form
        /\ Movement.qty r = mf_qty form
        /\ Movement.timestamp r = now
        /\ forall g, g <> MOVEMENTS_FILE -> fs' g = fs g)
  /\ (forall x, trimmed (form_get x) ->
                absent x = negb (present x) /\ location_field x = given x).
Proof.
  rewrite (add_movement_post cp cl cm form now fs ps ls ms Hps Hls Hms).
  split; [|split; [|split]].
  - intros [-> ->]. reflexivity.
  - intros fs'.
    destruct (absent (mf_from_location form)), (absent (mf_to_location form));
      simpl; intros H; try discriminate. tauto.
  - intros Hvalid.
    assert (E : absent (mf_from_location form) && absent (mf_to_location form)
                = false).
    { destruct Hvalid as [-> | ->]; [reflexivity | apply andb_false_r]. }
    rewrite E. eexists. eexists. split; [reflexivity|].
    split; [now apply load_save_same|]. simpl.
    repeat split. intros g Hg. now apply save_other.
  - intros x Hx. pose proof (location_field_trimmed x Hx) as G.
    split; trivial.
    pose proof (present_location_field x) as P. rewrite G in P.
    unfold given in P. destruct (present x) eqn:E.
    + rewrite E in P. now destruct (absent x).
    + simpl in P. now destruct (absent x).
Qed.

(** C9: on a data directory whose three files load, a location field
    that is missing, empty or made of white space only is stored as
    [None]: when both fields are such, the append fails with the
    invalid-movement message and leaves the data directory as it is,
    exactly as the append with both fields left out does; and whenever
    a movement is appended, each of its locations is [None] or a string
    that is neither empty nor blank. *)
Theorem append_normalises_blank_locations (form : movement_form) (now : str) :
  (absent (mf_from_location form) = true
   /\ absent (mf_to_location form) = true ->
   add_movement cp cl cm POST form now fs = Ok (InvalidMovement, fs)
   /\ add_movement cp cl cm POST form now fs
      = add_movement cp cl cm POST
          {| mf_product_id := mf_product_id form;
             mf_from_location := None;
             mf_to_location := None;
             mf_qty := mf_qty form |} now fs)
  /\ (forall fs',
        add_movement cp cl cm POST form now fs = Ok (MovementAdded, fs') ->
        exists r,
          load_data cm fs' MOVEMENTS_FILE = Ok (ms ++ [r])
          /\ (absent (mf_from_location form) = true ->
              Movement.from_location r = None)
          /\ (absent (mf_to_location form) = true ->
              Movement.to_location r = None)
          /\ no_blank_location (Movement.from_location r)
          /\ no_blank_location (Movement.to_location r)
          /\ Movement.from_location r <> Some []
          /\ Movement.to_location r <> Some []).
Proof.
  rewrite !(add_movement_post cp cl cm _ now fs ps ls ms Hps Hls Hms). split.
  - intros [-> ->]. simpl. split; reflexivity.
  - intros fs'.
    destruct (absent (mf_from_location form) && absent (mf_to_location form));
      [discriminate|].
    intros [= <-]. eexists. split; [now apply load_save_same|]. simpl.
    pose proof (location_field_no_blank (mf_from_location form)) as Nf.
    pose proof (location_field_no_blank (mf_to_location form)) as Nt.
    repeat split; try apply location_field_absent; trivial.
    + intros E. now rewrite E in Nf.
    + intros E. now rewrite E in Nt.
Qed.
End LedgerClaims.

(** ** The claims on the example data *)

Lemma next_movement_id_witness :
  exists fs' r,
    add_movement products_codec locations_codec movements_codec POST
      a_receipt stamp gapped_files = Ok (MovementAdded, fs')
    /\ load_data movements_codec fs' MOVEMENTS_FILE = Ok (a_gapped_ledger ++ [r])
    /\ (a_gapped_ledger = [] -> Movement.movement_id r = 1)
    /\ (a_gapped_ledger <> [] ->
        is_max (Movement.movement_id r - 1)
               (map Movement.movement_id a_gapped_ledger))
    /\ Forall (fun i => i < Movement.movement_id r)
              (map Movement.movement_id a_gapped_ledger)
    /\ (increasing_ids a_gapped_ledger -> increasing_ids (a_gapped_ledger ++ [r]))
    /\ (NoDup (map Movement.movement_id a_gapped_ledger) ->
        NoDup (map Movement.movement_id (a_gapped_ledger ++ [r]))).
Proof.
  apply (next_movement_id products_codec locations_codec movements_codec
           gapped_files [] [] a_gapped_ledger).
  - intros l. reflexivity.
  - reflexivity.
  - reflexivity.
  - reflexivity.
  - right. reflexivity.
Defined.

Lemma ledger_append_witness :
  exists fs' r,
    add_movement products_codec locations_codec movements_codec POST
      a_transfer stamp some_files = Ok (MovementAdded, fs')
    /\ load_data movements_codec fs' MOVEMENTS_FILE = Ok (some_movements ++ [r])
    /\ Movement.from_location r = location_field (Some (py "L1"))
    /\ Movement.to_location r = location_field (Some (py "L2"))
    /\ Movement.product_id r = py "P1"
    /\ Movement.qty r = 4
    /\ Movement.timestamp r = stamp
    /\ forall g, g <> MOVEMENTS_FILE -> fs' g = some_files g.
Proof.
  apply (ledger_append products_codec locations_codec movements_codec
           some_files some_products some_locations some_movements
           (fun l => eq_refl) eq_refl eq_refl eq_refl a_transfer stamp).
  left. reflexivity.
Defined.

Lemma append_normalises_blank_locations_witness :
  add_movement products_codec locations_codec movements_codec POST
    a_blank_movement stamp some_files = Ok (InvalidMovement, some_files)
  /\ add_movement products_codec locations_codec movements_codec POST
       a_blank_movement stamp some_files
     = add_movement products_codec locations_codec movements_codec POST
         an_empty_movement stamp some_files.
Proof.
  apply (append_normalises_blank_locations products_codec locations_codec
           movements_codec some_files some_products some_locations
           some_movements (fun l => eq_refl) eq_refl eq_refl eq_refl
           a_blank_movement stamp).
  split; reflexivity.
Defined.

Lemma registry_add_witness :
  (exists fs',
     add_product products_codec POST (product_form_of a_new_product) some_files
     = Ok (ProductAdded, fs')
     /\ products products_codec fs'
        = Ok (some_products ++ [product_of_form (product_form_of a_new_product)])
     /\ forall g, g <> PRODUCTS_FILE -> fs' g = some_files g)
  /\ (exists fs',
        add_location locations_codec POST (location_form_of a_new_location)
          some_files
        = Ok (LocationAdded, fs')
        /\ locations locations_codec fs'
           = Ok (some_locations
                 ++ [location_of_form (location_form_of a_new_location)])
        /\ forall g, g <> LOCATIONS_FILE -> fs' g = some_files g)
  /\ product_of_form (product_form_of a_new_product) = a_new_product
  /\ location_of_form (location_form_of a_new_location) = a_new_location.
Proof.
  destruct (registry_add products_codec locations_codec
              (fun l => eq_refl) (fun l => eq_refl)) as (Hp & Hl & Tp & Tl).
  split; [|split; [|split]].
  - destruct (Hp some_files some_products eq_refl) as (_ & _ & Hadd & _).
    apply Hadd. vm_compute. intuition discriminate.
  - destruct (Hl some_files some_locations eq_refl) as (_ & _ & Hadd & _).
    apply Hadd. vm_compute. intuition discriminate.
  - apply Tp. repeat split; reflexivity.
  - apply Tl. repeat split; reflexivity.
Defined.

Lemma registry_update_witness :
  (edit_product products_codec POST (py "P9") a_product_edit some_files
   = Ok (ProductNotFound, some_files))
  /\ (edit_location locations_codec POST (py "L9") a_location_edit some_files
      = Ok (LocationNotFound, some_files))
  /\ product_edited a_product_edit a_new_product
     = set_product a_product_edit a_new_product
  /\ location_edited a_location_edit a_new_location
     = set_location a_location_edit a_new_location.
Proof.
  destruct (registry_update products_codec locations_codec
              (fun l => eq_refl) (fun l => eq_refl)) as (Hp & Hl & Tp & Tl).
  split; [|split; [|split]].
  - apply (Hp some_files some_products (py "P9") a_product_edit eq_refl).
    vm_compute. intuition discriminate.
  - apply (Hl some_files some_locations (py "L9") a_location_edit eq_refl).
    vm_compute. intuition discriminate.
  - apply Tp. split; reflexivity.
  - apply Tl. split; reflexivity.
Defined.

(** The examples, run. *)

Example add_known_product :
  add_product products_codec POST
    {| pf_product_id := py " P2 "; pf_name := py "Nut"; pf_description := None |}
    some_files
  = Ok (DuplicateProductId, some_files).
Proof. reflexivity. Qed.

Example edit_second_product :
  exists fs',
    edit_product products_codec POST (py "P2") a_product_edit some_files
    = Ok (ProductUpdated, fs')
    /\ products products_codec fs'
       = Ok [ Product.mk (py "P1") (py "Widget") (py "small");
              Product.mk (py "P2") (py "Gadget") [];
              Product.mk (py "P3") (py "anvil") [] ].
Proof. eexists. split; reflexivity. Qed.

Example append_padded_transfer :
  exists fs',
    add_movement products_codec locations_codec movements_codec POST
      a_padded_transfer stamp gapped_files = Ok (MovementAdded, fs')
    /\ load_data movements_codec fs' MOVEMENTS_FILE
       = Ok (a_gapped_ledger
             ++ [Movement.mk 41 stamp (Some (py "L1")) (Some (py "L2"))
                             (py "P1") 4]).
Proof. eexists. split; reflexivity. Qed.

Example first_movement_id :
  exists fs',
    add_movement products_codec locations_codec movements_codec POST
      a_receipt stamp no_files = Ok (MovementAdded, fs')
    /\ load_data movements_codec fs' MOVEMENTS_FILE
       = Ok [Movement.mk 1 stamp None (Some (py "L2")) (py "P1") 4].
Proof. eexists. split; reflexivity. Qed.

Example upper_case_sorts_first : str_lt (py "Zebra") (py "apple") = true.
Proof. reflexivity. Qed.

(** * More of the report *)

(** ** When the report raises *)

Lemma mapM_Raise {A B} (f : A -> result B) (l : list A) (e : exn) :
  mapM f l = Raise e -> exists x, In x l /\ f x = Raise e.
Proof.
  induction l as [|x l IH]; simpl; [discriminate|].
  destruct (f x) as [y|e'] eqn:E; simpl.
  - destruct (mapM f l) as [ys|e'']; simpl; [discriminate|].
    intros [= <-]. destruct IH as (x' & ? & ?); eauto.
  - intros [= <-]. eauto.
Qed.

Lemma mapM_Ok_all {A B} (f : A -> result B) (l : list A) (ys : list B) (x : A) :
  mapM f l = Ok ys -> In x l -> exists y, f x = Ok y.
Proof.
  intros H Hx. apply mapM_Ok in H.
  destruct (Forall2_In_l _ _ _ _ H Hx) as (y & _ & Hy). eauto.
Qed.

Lemma row_of_Raise (pd ld : dict str) (item : str * Z) (e : exn) :
  row_of pd ld item = Raise e -> e = ValueError.
Proof.
  unfold row_of. destruct item as [k q].
  destruct (split pipe k) as [|p [|l [|? ?]]]; congruence.
Qed.

(** The row of a key is built exactly when neither identifier of the
    key contains the separator. *)
Lemma row_of_fkey_Raise (pd ld : dict str) (p l : str) (q : Z) :
  row_of pd ld (fkey p l, q) = Raise ValueError <-> In pipe p \/ In pipe l.
Proof.
  split.
  - intros H.
    destruct (in_dec N.eq_dec pipe p) as [|Hp]; [tauto|].
    destruct (in_dec N.eq_dec pipe l) as [|Hl]; [tauto|].
    rewrite row_of_fkey in H by assumption. discriminate.
  - intros H. destruct (row_of pd ld (fkey p l, q)) as [x|e] eqn:E.
    + exfalso. apply row_of_Ok in E as (Hk & Hp & Hl & _).
      symmetry in Hk. apply fkey_inj in Hk as [<- <-]; trivial.
      unfold pipe_free in *. tauto.
    + now rewrite (row_of_Raise _ _ _ _ E).
Qed.

Lemma balance_step_grows (b : dict Z) (m : Movement.t) (k : str) :
  In k (map fst b) \/ booked [m] k -> In k (map fst (balance_step b m)).
Proof.
  unfold balance_step, booked.
  destruct m as [i t from to pid q]; simpl.
  intros [H|(m' & l & [<-|[]] & Hl & -> & Hft)]; simpl in *.
  - destruct from as [lf|], to as [lt|];
      try destruct (truthy lf); try destruct (truthy lt);
      repeat rewrite dict_set_keys; tauto.
  - destruct Hft as [-> | ->]; rewrite ?Hl.
    + destruct to as [lt|]; try destruct (truthy lt);
        repeat rewrite dict_set_keys; tauto.
    + destruct from as [lf|]; try destruct (truthy lf);
        repeat rewrite dict_set_keys; tauto.
Qed.

Lemma booked_in_balance (ms : list Movement.t) (k : str) :
  booked ms k -> In k (map fst (balance_of ms)).
Proof.
  unfold balance_of.
  enough (H : forall b, In k (map fst b) \/ booked ms k ->
                        In k (map fst (fold_left balance_step ms b))) by auto.
  induction ms as [|m ms IH]; intros b; simpl.
  - intros [H|(m & l & [] & _)]. exact H.
  - intros [H|(m' & l & [<-|Hm] & Hl)]; apply IH.
    + left. apply balance_step_grows. now left.
    + left. apply balance_step_grows. right. exists m, l. simpl. tauto.
    + right. exists m', l. tauto.
Qed.

(** The entries of the balance: one for each key a movement spelt,
    holding the net of what was booked under it. *)
Lemma balance_In_iff (ms : list Movement.t) (k : str) (q : Z) :
  In (k, q) (balance_of ms) <-> booked ms k /\ q = key_net ms k.
Proof.
  split.
  - intros Hin. split.
    + apply balance_of_keys. change k with (fst (k, q)). now apply in_map.
    + apply dict_In_get in Hin; [|apply balance_of_NoDup].
      rewrite <- get_balance_of. unfold get. now rewrite Hin.
  - intros [Hb ->]. apply booked_in_balance in Hb.
    destruct (dict_get (balance_of ms) k) as [v|] eqn:E.
    + pose proof (get_balance_of ms k) as Hg. unfold get in Hg.
      rewrite E in Hg. subst v. now apply dict_get_In.
    + apply dict_get_None in E. tauto.
Qed.

(** An exception of the report is the exception of the row of some
    entry that is not zero. *)
Lemma report_data_Raise (ms : list Movement.t) (ps : list Product.t)
    (ls : list Location.t) (e : exn) :
  report_data ms ps ls = Raise e ->
  exists item,
    In item (filter (fun item => negb (snd item =? 0)) (balance_of ms))
    /\ row_of (product_dict ps) (location_dict ls) item = Raise e.
Proof.
  unfold report_data, items.
  destruct (mapM _ _) as [ys|e'] eqn:E; simpl; [discriminate|].
  intros [= <-]. now apply mapM_Raise.
Qed.

Lemma report_data_Raise_ValueError (ms : list Movement.t) (ps : list Product.t)
    (ls : list Location.t) (e : exn) :
  report_data ms ps ls = Raise e -> e = ValueError.
Proof.
  intros H. destruct (report_data_Raise ms ps ls e H) as (item & _ & Hrow).
  exact (row_of_Raise _ _ _ _ Hrow).
Qed.

(** X1: the report raises exactly when some movement of the ledger has a
    product or location identifier that contains ['|'] and the balance
    booked under the key of the two is not zero; the exception is then
    [ValueError], and the report raises no other. *)
Theorem report_raises_iff (ms : list Movement.t) (ps : list Product.t)
    (ls : list Location.t) :
  (report_data ms ps ls = Raise ValueError <->
   exists m l,
     In m ms
     /\ (Movement.from_location m = Some l \/ Movement.to_location m = Some l)
     /\ truthy l = true
     /\ (In pipe (Movement.product_id m) \/ In pipe l)
     /\ key_net ms (fkey (Movement.product_id m) l) <> 0)
  /\ (forall e, report_data ms ps ls = Raise e -> e = ValueError).
Proof.
  pose proof (report_data_Raise ms ps ls) as Hraise.
  split; [split|].
  - intros H. destruct (Hraise _ H) as ([k q] & Hin & Hrow).
    apply filter_In in Hin as [Hin Hq]. simpl in Hq.
    apply negb_true_iff, Z.eqb_neq in Hq.
    apply balance_In_iff in Hin as [(m & l & Hm & Hl & -> & Hft) ->].
    apply row_of_fkey_Raise in Hrow.
    exists m, l. tauto.
  - intros (m & l & Hm & Hft & Hl & Hpipe & Hnet).
    assert (Hin : In (fkey (Movement.product_id m) l,
                      key_net ms (fkey (Movement.product_id m) l))
                     (filter (fun item => negb (snd item =? 0)) (balance_of ms))).
    { apply filter_In. split.
      - apply balance_In_iff. split; trivial. exists m, l. tauto.
      - simpl. now apply negb_true_iff, Z.eqb_neq. }
    destruct (report_data ms ps ls) as [rows|e] eqn:E.
    + exfalso. unfold report_data, items in E.
      destruct (mapM _ _) as [ys|e'] eqn:E'; simpl in E; [|discriminate].
      destruct (mapM_Ok_all _ _ _ _ E' Hin) as [y Hy].
      apply (row_of_fkey_Raise (product_dict ps) (location_dict ls) _ _
               (key_net ms (fkey (Movement.product_id m) l))) in Hpipe.
      congruence.
    + destruct (Hraise _ eq_refl) as (item & _ & Hrow).
      now rewrite (row_of_Raise _ _ _ _ Hrow).
  - intros e H. destruct (Hraise _ H) as (item & _ & Hrow).
    exact (row_of_Raise _ _ _ _ Hrow).
Qed.

(** ** The report and the order of the ledger *)

Lemma fold_add_perm {A} (f : A -> Z) (l l' : list A) :
  Permutation l l' ->
  forall a, fold_left (fun acc x => acc + f x) l a
            = fold_left (fun acc x => acc + f x) l' a.
Proof.
  induction 1 as [|x l l' _ IH|x y l|l l' l'' _ IH1 _ IH2]; intros a; simpl.
  - reflexivity.
  - apply IH.
  - f_equal. lia.
  - now rewrite IH1.
Qed.

Lemma key_net_perm (ms ms' : list Movement.t) (k : str) :
  Permutation ms ms' -> key_net ms k = key_net ms' k.
Proof. intros H. unfold key_net. now apply fold_add_perm. Qed.

Lemma booked_perm (ms ms' : list Movement.t) (k : str) :
  Permutation ms ms' -> booked ms k -> booked ms' k.
Proof.
  intros H (m & l & Hm & Hl). exists m, l. split; trivial.
  now apply (Permutation_in _ H).
Qed.

Lemma NoDup_keys {V} (d : dict V) : NoDup (map fst d) -> NoDup d.
Proof. apply NoDup_map_inv. Qed.

Lemma balance_perm (ms ms' : list Movement.t) :
  Permutation ms ms' -> Permutation (balance_of ms) (balance_of ms').
Proof.
  intros H. apply NoDup_Permutation.
  - apply NoDup_keys, balance_of_NoDup.
  - apply NoDup_keys, balance_of_NoDup.
  - intros [k q]. rewrite !balance_In_iff, (key_net_perm _ _ k H).
    split; intros [Hb Hq]; split; trivial.
    + now apply (booked_perm ms ms').
    + apply (booked_perm ms' ms); trivial. now symmetry.
Qed.

Lemma filter_perm {A} (test : A -> bool) (l l' : list A) :
  Permutation l l' -> Permutation (filter test l) (filter test l').
Proof.
  induction 1 as [|x l l' _ IH|x y l|l l' l'' _ IH1 _ IH2]; simpl.
  - constructor.
  - destruct (test x); [now constructor | trivial].
  - destruct (test x), (test y); try reflexivity. apply perm_swap.
  - now transitivity (filter test l').
Qed.

Lemma mapM_perm {A B} (f : A -> result B) (l l' : list A) :
  Permutation l l' ->
  forall ys, mapM f l = Ok ys ->
             exists ys', mapM f l' = Ok ys' /\ Permutation ys ys'.
Proof.
  induction 1 as [|x l l' _ IH|x y l|l l' l'' _ IH1 _ IH2]; intros ys; simpl.
  - intros [= <-]. now exists [].
  - destruct (f x) as [b|e]; simpl; [|discriminate].
    destruct (mapM f l) as [bs|e]; simpl; [|discriminate].
    intros [= <-]. destruct (IH bs eq_refl) as (bs' & -> & Hp).
    simpl. exists (b :: bs'). split; trivial. now constructor.
  - destruct (f y) as [b|e]; simpl; [|discriminate].
    destruct (f x) as [c|e]; simpl; [|discriminate].
    destruct (mapM f l) as [bs|e]; simpl; [|discriminate].
    intros [= <-]. exists (c :: b :: bs). split; trivial. apply perm_swap.
  - intros H1. destruct (IH1 ys H1) as (ys' & H2 & Hp1).
    destruct (IH2 ys' H2) as (ys'' & H3 & Hp2).
    exists ys''. split; trivial. now transitivity ys'.
Qed.

(** X2: the report does not depend on the order of the ledger.  For two
    ledgers with the same movements in another order, every accumulator
    holds the same balance, and when the report of one returns rows,
    the report of the other returns the same rows, up to their order. *)
Theorem report_order_independent (ms ms' : list Movement.t)
    (ps : list Product.t) (ls : list Location.t) :
  Permutation ms ms' ->
  (forall k, get (balance_of ms) k 0 = get (balance_of ms') k 0)
  /\ (forall rows, report_data ms ps ls = Ok rows ->
        exists rows', report_data ms' ps ls = Ok rows'
                      /\ Permutation rows rows').
Proof.
  intros H. split.
  - intros k. now rewrite !get_balance_of, (key_net_perm _ _ k H).
  - intros rows. unfold report_data, items.
    destruct (mapM _ (filter _ (balance_of ms))) as [ys|e] eqn:E; simpl;
      [|discriminate].
    intros [= <-].
    destruct (mapM_perm (row_of (product_dict ps) (location_dict ls)) _ _
                (filter_perm (fun item => negb (snd item =? 0)) _ _
                   (balance_perm ms ms' H)) ys E) as (ys' & -> & Hp).
    simpl. eexists. split; [reflexivity|].
    rewrite (sort_perm row_key ys), (sort_perm row_key ys'). exact Hp.
Qed.

(** ** What the quantities of the report add up to *)

Lemma sumZ_app (l l' : list Z) : sumZ (l ++ l') = sumZ l + sumZ l'.
Proof. unfold sumZ. induction l as [|x l IH]; simpl; lia. Qed.

Lemma sumZ_perm (l l' : list Z) : Permutation l l' -> sumZ l = sumZ l'.
Proof. unfold sumZ. induction 1; simpl; lia. Qed.

Lemma sum_dict_set (d : dict Z) (k : str) (v : Z) :
  sumZ (map snd (dict_set d k v)) = sumZ (map snd d) - get d k 0 + v.
Proof.
  unfold get, sumZ. induction d as [|[k' v'] r IH]; simpl; [lia|].
  destruct (str_eqb k' k); simpl; lia.
Qed.

Lemma sum_balance_step (b : dict Z) (m : Movement.t) :
  sumZ (map snd (balance_step b m))
  = sumZ (map snd b) + received m - issued m.
Proof.
  unfold balance_step, received, issued, present.
  destruct m as [i t from to pid q]; simpl.
  destruct from as [lf|], to as [lt|];
    try destruct (truthy lf); try destruct (truthy lt);
    rewrite ?sum_dict_set; lia.
Qed.

Lemma sum_balance_of (ms : list Movement.t) :
  sumZ (map snd (balance_of ms))
  = sumZ (map received ms) - sumZ (map issued ms).
Proof.
  unfold balance_of.
  enough (H : forall b, sumZ (map snd (fold_left balance_step ms b))
                        = sumZ (map snd b) + sumZ (map received ms)
                          - sumZ (map issued ms)).
  { rewrite H. simpl. lia. }
  induction ms as [|m ms IH]; intros b; simpl; [lia|].
  rewrite IH, sum_balance_step. lia.
Qed.

Lemma sum_filter_nonzero (d : dict Z) :
  sumZ (map snd (filter (fun item => negb (snd item =? 0)) d))
  = sumZ (map snd d).
Proof.
  induction d as [|[k v] r IH]; simpl; trivial.
  destruct (Z.eqb_spec v 0); simpl; lia.
Qed.

(** X3: stock is conserved.  The quantities of the rows of a report add
    up to what the ledger received (the movements with a destination)
    less what it issued (the movements with a source); a transfer, which
    has both, adds nothing. *)
Theorem report_total (ms : list Movement.t) (ps : list Product.t)
    (ls : list Location.t) (rows : list Row.t) :
  report_data ms ps ls = Ok rows ->
  sumZ (map Row.qty rows) = sumZ (map received ms) - sumZ (map issued ms).
Proof.
  intros H. apply report_data_Ok in H as (ys & Hys & ->).
  rewrite (sumZ_perm _ _ (Permutation_map Row.qty (sort_perm row_key ys))).
  rewrite <- sum_balance_of, <- sum_filter_nonzero.
  f_equal. symmetry. apply Forall2_map_eq.
  eapply Forall2_impl; [|exact Hys].
  intros [k q] y Hy. apply row_of_Ok in Hy. simpl. symmetry. tauto.
Qed.

Lemma report_total_witness :
  sumZ (map Row.qty
          some_rows)
  = sumZ (map received some_movements) - sumZ (map issued some_movements).
Proof.
  apply (report_total some_movements some_products some_locations).
  vm_compute. reflexivity.
Defined.

Lemma report_order_independent_witness :
  get (balance_of [receipt_P1_L1; transfer_P1_L1_L2]) (py "P1|L1") 0
  = get (balance_of [transfer_P1_L1_L2; receipt_P1_L1]) (py "P1|L1") 0.
Proof.
  destruct (report_order_independent [receipt_P1_L1; transfer_P1_L1_L2]
              [transfer_P1_L1_L2; receipt_P1_L1] [] [] (perm_swap _ _ _))
    as [H _].
  apply H.
Defined.

(** ** The report and the registries *)

Lemma row_of_renamed (pd ld pd' ld' : dict str) (item : str * Z) (x : Row.t) :
  row_of pd ld item = Ok x -> row_of pd' ld' item = Ok (renamed pd' ld' x).
Proof.
  unfold row_of, renamed. destruct item as [k q].
  destruct (split pipe k) as [|p [|l [|? ?]]]; try discriminate.
  now intros [= <-].
Qed.

Lemma report_data_renamed (ms : list Movement.t) (ps ps' : list Product.t)
    (ls ls' : list Location.t) (rows : list Row.t) :
  report_data ms ps ls = Ok rows ->
  exists ys,
    Permutation rows ys
    /\ report_data ms ps' ls'
       = Ok (sort row_key
               (map (renamed (product_dict ps') (location_dict ls')) ys)).
Proof.
  intros H. apply report_data_Ok in H as (ys & Hys & ->).
  exists ys. split; [apply sort_perm|].
  unfold report_data, items.
  assert (E : mapM (row_of (product_dict ps') (location_dict ls'))
                (filter (fun item => negb (snd item =? 0)) (balance_of ms))
              = Ok (map (renamed (product_dict ps') (location_dict ls')) ys)).
  { apply mapM_Ok. revert Hys. generalize (filter (fun item : str * Z =>
      negb (snd item =? 0)) (balance_of ms)).
    intros l Hys. induction Hys as [|item y l ys Hy _ IH]; simpl; constructor.
    - now apply row_of_renamed with (product_dict ps) (location_dict ls).
    - exact IH. }
  now rewrite E.
Qed.

(** X4: the registries decide the names of the rows and their order, and
    nothing else.  When the report returns rows, it returns rows for the
    same pairs with the same quantities whatever the registries hold,
    an identifier that is not registered included; and when it raises,
    it raises whatever the registries hold. *)
Theorem report_registry_independent (ms : list Movement.t)
    (ps ps' : list Product.t) (ls ls' : list Location.t) :
  (forall rows, report_data ms ps ls = Ok rows ->
     exists rows', report_data ms ps' ls' = Ok rows'
                   /\ Permutation (map triple rows) (map triple rows'))
  /\ (forall e, report_data ms ps ls = Raise e ->
                report_data ms ps' ls' = Raise e).
Proof.
  split.
  - intros rows H.
    destruct (report_data_renamed ms ps ps' ls ls' rows H) as (ys & Hp & ->).
    eexists. split; [reflexivity|].
    rewrite (Permutation_map triple Hp).
    rewrite (Permutation_map triple (sort_perm row_key _)).
    rewrite map_map. reflexivity.
  - intros e H.
    destruct (report_data ms ps' ls') as [rows'|e'] eqn:E.
    + destruct (report_data_renamed ms ps' ps ls' ls rows' E) as (ys & _ & H').
      congruence.
    + now rewrite (report_data_Raise_ValueError ms ps ls e H),
        (report_data_Raise_ValueError ms ps' ls' e' E).
Qed.

(** ** The names of the rows *)

Section Comprehension.
Context {R : Type}.
Variables ident name : R -> str.

Let comprehension (rs : list R) (d : dict str) : dict str :=
  fold_left (fun d r => dict_set d (ident r) (name r)) rs d.

Lemma comprehension_other (rs : list R) (d : dict str) (id : str) :
  ~ In id (map ident rs) ->
  dict_get (comprehension rs d) id = dict_get d id.
Proof.
  unfold comprehension. revert d.
  induction rs as [|r rs IH]; intros d Hn; simpl; trivial.
  simpl in Hn. rewrite IH by tauto.
  apply dict_get_set_other. intros ->. tauto.
Qed.

(** [{ident(r): name(r) for r in rs}]: the last record with an
    identifier gives its name. *)
Lemma comprehension_last (before after : list R) (r : R) (d : dict str) :
  ~ In (ident r) (map ident after) ->
  dict_get (comprehension (before ++ r :: after) d) (ident r) = Some (name r).
Proof.
  intros Hn. unfold comprehension. rewrite fold_left_app. simpl.
  fold (comprehension after
          (dict_set (fold_left (fun d r => dict_set d (ident r) (name r)) before d)
                    (ident r) (name r))).
  rewrite comprehension_other by trivial. apply dict_get_set_same.
Qed.
End Comprehension.

Lemma product_dict_unknown (ps : list Product.t) (id : str) :
  ~ In id (map Product.product_id ps) -> get (product_dict ps) id Unknown = Unknown.
Proof.
  intros H. unfold get, product_dict.
  now rewrite (comprehension_other Product.product_id Product.name ps [] id H).
Qed.

Lemma product_dict_last (before after : list Product.t) (p : Product.t) :
  ~ In (Product.product_id p) (map Product.product_id after) ->
  get (product_dict (before ++ p :: after)) (Product.product_id p) Unknown
  = Product.name p.
Proof.
  intros H. unfold get, product_dict.
  now rewrite (comprehension_last Product.product_id Product.name before after
                 p [] H).
Qed.

Lemma location_dict_unknown (ls : list Location.t) (id : str) (dflt : str) :
  ~ In id (map Location.location_id ls) -> get (location_dict ls) id dflt = dflt.
Proof.
  intros H. unfold get, location_dict.
  now rewrite (comprehension_other Location.location_id Location.name ls [] id H).
Qed.

Lemma location_dict_last (before after : list Location.t) (l : Location.t)
    (dflt : str) :
  ~ In (Location.location_id l) (map Location.location_id after) ->
  get (location_dict (before ++ l :: after)) (Location.location_id l) dflt
  = Location.name l.
Proof.
  intros H. unfold get, location_dict.
  now rewrite (comprehension_last Location.location_id Location.name before
                 after l [] H).
Qed.

(** X5: the names of a row.  The product name is ["Unknown"] when no
    product has the identifier of the row, and otherwise the name of the
    last product of the registry with that identifier; the same holds of
    the location name. *)
Theorem report_names (ms : list Movement.t) (ps : list Product.t)
    (ls : list Location.t) (rows : list Row.t) (x : Row.t) :
  report_data ms ps ls = Ok rows -> In x rows ->
  (~ In (Row.product_id x) (map Product.product_id ps) ->
   Row.product_name x = Unknown)
  /\ (forall before p after,
        ps = before ++ p :: after ->
        Product.product_id p = Row.product_id x ->
        ~ In (Row.product_id x) (map Product.product_id after) ->
        Row.product_name x = Product.name p)
  /\ (~ In (Row.location_id x) (map Location.location_id ls) ->
      Row.location_name x = Unknown)
  /\ (forall before l after,
        ls = before ++ l :: after ->
        Location.location_id l = Row.location_id x ->
        ~ In (Row.location_id x) (map Location.location_id after) ->
        Row.location_name x = Location.name l).
Proof.
  intros H Hx.
  destruct (report_row_sound ms ps ls rows x H Hx) as (_ & _ & -> & ->).
  split; [|split; [|split]].
  - apply product_dict_unknown.
  - intros before p after -> <-. apply product_dict_last.
  - apply location_dict_unknown.
  - intros before l after -> <-. apply location_dict_last.
Qed.

Lemma report_names_witness :
  Row.product_name (Row.mk (py "P3") (py "anvil") (py "L1") (py "Yard") 7)
  = Product.name (Product.mk (py "P3") (py "anvil") []).
Proof.
  destruct (report_names some_movements some_products some_locations some_rows
              (Row.mk (py "P3") (py "anvil") (py "L1") (py "Yard") 7))
    as (_ & H & _).
  - vm_compute. reflexivity.
  - simpl. tauto.
  - apply (H [ Product.mk (py "P1") (py "Widget") (py "small");
               Product.mk (py "P2") (py "Widget") (py "large") ]
             (Product.mk (py "P3") (py "anvil") []) []).
    + reflexivity.
    + reflexivity.
    + simpl. tauto.
Defined.



(** * The movements page *)

Lemma StronglySorted_snoc_gen {A} (R : A -> A -> Prop) (l : list A) (x : A) :
  StronglySorted R l -> Forall (fun y => R y x) l -> StronglySorted R (l ++ [x]).
Proof.
  induction 1 as [|y l Hl IH Hy]; intros Hx; simpl.
  - repeat constructor.
  - inversion Hx as [|? ? Hyx Hlx]; subst.
    constructor; [auto|]. apply Forall_app. split; trivial.
    now repeat constructor.
Qed.

Lemma StronglySorted_rev (l : list Z) :
  StronglySorted Z.lt l -> StronglySorted Z.gt (rev l).
Proof.
  induction 1 as [|x l Hl IH Hx]; simpl; [constructor|].
  apply StronglySorted_snoc_gen; trivial.
  apply Forall_rev. eapply Forall_impl; [|exact Hx].
  intros y Hy. lia.
Qed.

Lemma shown_location_spec (ls : list Location.t) (x : option str) :
  shown_as ls x (shown_location (location_dict ls) x).
Proof.
  unfold shown_as, shown_location, present. split.
  - destruct x as [l|]; trivial. now intros ->.
  - intros l -> Hl. rewrite Hl. split.
    + apply location_dict_unknown.
    + intros before r after -> <-. apply location_dict_last.
Qed.

Section MovementsPage.
Context {text : Type}.
Variable cp : codec text (list Product.t).
Variable cl : codec text (list Location.t).
Variable cm : codec text (list Movement.t).

(** X7: when the three files load, [movements()] shows the ledger with
    the last movement first: the records shown are the stored ones, all
    of them, in reverse, so that increasing identifiers come out
    decreasing.  Each is shown with the name of the last product
    registered under its product identifier, or ["Unknown"] when there
    is none, and with its locations as [shown_as] describes: a dash
    takes the place of a missing or unregistered location. *)
Theorem movements_shown (fs : disk text) (ps : list Product.t)
    (ls : list Location.t) (ms : list Movement.t) :
  load_data cm fs MOVEMENTS_FILE = Ok ms ->
  load_data cp fs PRODUCTS_FILE = Ok ps ->
  load_data cl fs LOCATIONS_FILE = Ok ls ->
  exists shown,
    movements cp cl cm fs = Ok shown
    /\ map Shown.movement shown = rev ms
    /\ (increasing_ids ms ->
        StronglySorted Z.gt
          (map (fun s => Movement.movement_id (Shown.movement s)) shown))
    /\ forall s, In s shown ->
         let m := Shown.movement s in
         (~ In (Movement.product_id m) (map Product.product_id ps) ->
          Shown.product_name s = Unknown)
         /\ (forall before p after,
               ps = before ++ p :: after ->
               Product.product_id p = Movement.product_id m ->
               ~ In (Movement.product_id m) (map Product.product_id after) ->
               Shown.product_name s = Product.name p)
         /\ shown_as ls (Movement.from_location m) (Shown.from_location_name s)
         /\ shown_as ls (Movement.to_location m) (Shown.to_location_name s).
Proof.
  intros Hms Hps Hls. unfold movements. rewrite Hms, Hps, Hls. simpl.
  eexists. split; [reflexivity|].
  assert (Hproj : map Shown.movement
                    (rev (map (show (product_dict ps) (location_dict ls)) ms))
                  = rev ms).
  { rewrite map_rev, map_map. simpl. now rewrite map_id. }
  split; [exact Hproj|]. split.
  - intros Hinc. rewrite <- (map_map Shown.movement Movement.movement_id).
    rewrite Hproj, map_rev. now apply StronglySorted_rev.
  - intros s Hs. apply in_rev, in_map_iff in Hs as (m & <- & _). simpl.
    split; [apply product_dict_unknown|].
    split; [intros before p after -> <-; apply product_dict_last|].
    split; apply shown_location_spec.
Qed.
End MovementsPage.

Lemma movements_shown_witness :
  exists shown,
    movements products_codec locations_codec movements_codec gapped_files
    = Ok shown
    /\ map Shown.movement shown = rev a_gapped_ledger.
Proof.
  destruct (movements_shown products_codec locations_codec movements_codec
              gapped_files [] [] a_gapped_ledger eq_refl eq_refl eq_refl)
    as (shown & H1 & H2 & _).
  exists shown. split; assumption.
Defined.

(** * What a request can change *)

Section Requests.
Context {text : Type}.
Variable cp : codec text (list Product.t).
Variable cl : codec text (list Location.t).
Variable cm : codec text (list Movement.t).

(** X8: a request writes at most the file of its own handler, and that
    only when it is a [POST] that is answered with a success message.
    A [GET], and a request answered with an error message or a page,
    leave the data directory as it is. *)
Theorem handle_frame (r : request) (fs fs' : disk text) (resp : response) :
  handle cp cl cm r fs = Ok (resp, fs') ->
  (forall g, g <> file_of r -> fs' g = fs g)
  /\ (method_of r = GET -> fs' = fs)
  /\ (category_of resp <> Some "success"%string -> fs' = fs).
Proof.
  destruct r as [m f|m id e|m f|m id e|m f now]; simpl;
    unfold add_product, edit_product, add_location, edit_location, add_movement;
    destruct m;
    repeat match goal with
      | |- context [load_data ?c fs ?f] =>
          destruct (load_data c fs f); simpl; [|discriminate]
      end;
    repeat match goal with
      | |- context [if ?b then _ else _] => destruct b
      | |- context [find ?t ?l] => destruct (find t l)
      end;
    intros H; injection H as <- <-; simpl;
    (split; [|split]); trivial; try discriminate; try congruence;
    intros g Hg; now apply save_other.
Qed.
End Requests.

Lemma handle_frame_witness :
  save_data movements_codec gapped_files MOVEMENTS_FILE
    (a_gapped_ledger
     ++ [Movement.mk 41 stamp None (Some (py "L2")) (py "P1") 4]) PRODUCTS_FILE
  = gapped_files PRODUCTS_FILE.
Proof.
  destruct (handle_frame products_codec locations_codec movements_codec
              (AddMovement POST a_receipt stamp) gapped_files
              (save_data movements_codec gapped_files MOVEMENTS_FILE
                 (a_gapped_ledger
                  ++ [Movement.mk 41 stamp None (Some (py "L2")) (py "P1") 4]))
              MovementAdded eq_refl) as [H _].
  apply H. discriminate.
Defined.

(** ** Requests as changes of the contents *)

Lemma lstrip_idem (s : str) : lstrip (lstrip s) = lstrip s.
Proof.
  pose proof (lstrip_head s) as H.
  destruct (lstrip s) as [|c r]; simpl; trivial. now rewrite H.
Qed.

(** What [strip] returns is trimmed. *)
Lemma strip_idem (s : str) : trimmed (strip s).
Proof.
  unfold trimmed.
  assert (Hl : lstrip (strip s) = strip s).
  { pose proof (strip_head s) as H.
    destruct (strip s) as [|c r]; simpl; trivial. now rewrite H. }
  unfold strip at 1. rewrite Hl.
  unfold strip, rstrip. now rewrite rev_involutive, lstrip_idem.
Qed.

Section Changes.
Context {text : Type}.
Variable cp : codec text (list Product.t).
Variable cl : codec text (list Location.t).
Variable cm : codec text (list Movement.t).
Hypothesis Hcp : round_trips cp.
Hypothesis Hcl : round_trips cl.
Hypothesis Hcm : round_trips cm.

Lemma read_Ok (fs : disk text) (c : contents) :
  read cp cl cm fs = Ok c <->
  load_data cp fs PRODUCTS_FILE = Ok (c_products c)
  /\ load_data cl fs LOCATIONS_FILE = Ok (c_locations c)
  /\ load_data cm fs MOVEMENTS_FILE = Ok (c_movements c).
Proof.
  unfold read. destruct c as [ps ls ms]. simpl.
  destruct (load_data cp fs PRODUCTS_FILE) as [ps'|]; simpl;
    [|split; [discriminate | intros [? _]; discriminate]].
  destruct (load_data cl fs LOCATIONS_FILE) as [ls'|]; simpl;
    [|split; [discriminate | intros (_ & ? & _); discriminate]].
  destruct (load_data cm fs MOVEMENTS_FILE) as [ms'|]; simpl;
    [|split; [discriminate | intros (_ & _ & ?); discriminate]].
  split.
  - intros [= -> -> ->]. auto.
  - intros ([= ->] & [= ->] & [= ->]). reflexivity.
Qed.

Lemma read_save_products (fs : disk text) (ps ps' : list Product.t)
    (ls : list Location.t) (ms : list Movement.t) :
  read cp cl cm fs = Ok (Build_contents ps ls ms) ->
  read cp cl cm (save_data cp fs PRODUCTS_FILE ps')
  = Ok (Build_contents ps' ls ms).
Proof.
  intros H. apply read_Ok in H as (_ & Hl & Hm). simpl in *.
  apply read_Ok. simpl.
  rewrite load_save_same, !load_save_other by (trivial; discriminate). auto.
Qed.

Lemma read_save_locations (fs : disk text) (ps : list Product.t)
    (ls ls' : list Location.t) (ms : list Movement.t) :
  read cp cl cm fs = Ok (Build_contents ps ls ms) ->
  read cp cl cm (save_data cl fs LOCATIONS_FILE ls')
  = Ok (Build_contents ps ls' ms).
Proof.
  intros H. apply read_Ok in H as (Hp & _ & Hm). simpl in *.
  apply read_Ok. simpl.
  rewrite load_save_same, !load_save_other by (trivial; discriminate). auto.
Qed.

Lemma read_save_movements (fs : disk text) (ps : list Product.t)
    (ls : list Location.t) (ms ms' : list Movement.t) :
  read cp cl cm fs = Ok (Build_contents ps ls ms) ->
  read cp cl cm (save_data cm fs MOVEMENTS_FILE ms')
  = Ok (Build_contents ps ls ms').
Proof.
  intros H. apply read_Ok in H as (Hp & Hl & _). simpl in *.
  apply read_Ok. simpl.
  rewrite load_save_same, !load_save_other by (trivial; discriminate). auto.
Qed.

(** On a data directory that loads, a request is answered, the data
    directory still loads, and its contents have changed as [change]
    allows. *)
Lemma handle_change (r : request) (fs : disk text) (c : contents) :
  read cp cl cm fs = Ok c ->
  exists resp fs' c',
    handle cp cl cm r fs = Ok (resp, fs')
    /\ read cp cl cm fs' = Ok c'
    /\ change c c'.
Proof.
  intros Hc. destruct c as [ps ls ms].
  pose proof Hc as Hloads. apply read_Ok in Hloads as (Hp & Hl & Hm).
  simpl in Hp, Hl, Hm.
  destruct r as [m f|m id e|m f|m id e|m f now]; simpl.
  - destruct m.
    + unfold add_product. do 3 eexists. split; [reflexivity|].
      split; [exact Hc | constructor].
    + rewrite (add_product_post cp f fs ps Hp).
      destruct (existsb _ ps) eqn:E.
      * do 3 eexists. split; [reflexivity|]. split; [exact Hc | constructor].
      * do 3 eexists. split; [reflexivity|].
        split; [eapply read_save_products; exact Hc|].
        apply product_added. now apply existsb_ident_false.
  - pose proof (find_update_first (fun p => str_eqb (Product.product_id p) id)
                  (product_edited e) ps) as H.
    destruct m.
    + unfold edit_product. rewrite Hp. simpl.
      destruct (find _ ps); do 3 eexists;
        (split; [reflexivity|]); (split; [exact Hc | constructor]).
    + rewrite (edit_product_post cp id e fs ps Hp).
      destruct (find _ ps) as [p|].
      * destruct H as (before & after & -> & Hr & Hb & Hu).
        do 3 eexists. split; [reflexivity|].
        split; [eapply read_save_products; exact Hc|].
        rewrite Hu. apply product_edited_in_place.
        apply str_eqb_eq in Hr. rewrite Hr. now apply Forall_test_ident.
      * do 3 eexists. split; [reflexivity|]. split; [exact Hc | constructor].
  - destruct m.
    + unfold add_location. do 3 eexists. split; [reflexivity|].
      split; [exact Hc | constructor].
    + rewrite (add_location_post cl f fs ls Hl).
      destruct (existsb _ ls) eqn:E.
      * do 3 eexists. split; [reflexivity|]. split; [exact Hc | constructor].
      * do 3 eexists. split; [reflexivity|].
        split; [eapply read_save_locations; exact Hc|].
        apply location_added. now apply existsb_ident_false.
  - pose proof (find_update_first (fun l => str_eqb (Location.location_id l) id)
                  (location_edited e) ls) as H.
    destruct m.
    + unfold edit_location. rewrite Hl. simpl.
      destruct (find _ ls); do 3 eexists;
        (split; [reflexivity|]); (split; [exact Hc | constructor]).
    + rewrite (edit_location_post cl id e fs ls Hl).
      destruct (find _ ls) as [l|].
      * destruct H as (before & after & -> & Hr & Hb & Hu).
        do 3 eexists. split; [reflexivity|].
        split; [eapply read_save_locations; exact Hc|].
        rewrite Hu. apply location_edited_in_place.
        apply str_eqb_eq in Hr. rewrite Hr. now apply Forall_test_ident.
      * do 3 eexists. split; [reflexivity|]. split; [exact Hc | constructor].
  - destruct m.
    + unfold add_movement. rewrite Hp, Hl. simpl.
      do 3 eexists. split; [reflexivity|]. split; [exact Hc | constructor].
    + rewrite (add_movement_post cp cl cm f now fs ps ls ms Hp Hl Hm).
      destruct (absent (mf_from_location f) && absent (mf_to_location f)) eqn:E.
      * do 3 eexists. split; [reflexivity|]. split; [exact Hc | constructor].
      * do 3 eexists. split; [reflexivity|].
        split; [eapply read_save_movements; exact Hc|].
        now apply movement_appended.
Qed.

Lemma serve_changes (reqs : list request) (fs : disk text) (c : contents) :
  read cp cl cm fs = Ok c ->
  exists resps fs' c',
    serve (map (handle cp cl cm) reqs) fs = Ok (resps, fs')
    /\ List.length resps = List.length reqs
    /\ read cp cl cm fs' = Ok c'
    /\ changes c c'.
Proof.
  revert fs c. induction reqs as [|r reqs IH]; intros fs c Hc; simpl.
  - exists [], fs, c. repeat split; trivial. constructor.
  - destruct (handle_change r fs c Hc) as (resp & fs1 & c1 & H1 & Hc1 & Hch).
    destruct (IH fs1 c1 Hc1) as (resps & fs2 & c2 & H2 & Hlen & Hc2 & Hchs).
    exists (resp :: resps), fs2, c2. rewrite H1. simpl. rewrite H2. simpl.
    repeat split; trivial.
    + now rewrite Hlen.
    + now apply changes_more with c1.
Qed.

(** What every change keeps, every sequence of requests keeps. *)
Lemma serve_keeps (P : contents -> Prop) :
  (forall c c', change c c' -> P c -> P c') ->
  forall reqs fs c resps fs',
    read cp cl cm fs = Ok c ->
    serve (map (handle cp cl cm) reqs) fs = Ok (resps, fs') ->
    exists c', read cp cl cm fs' = Ok c' /\ (P c -> P c').
Proof.
  intros Hkeep reqs fs c resps fs' Hc Hs.
  destruct (serve_changes reqs fs c Hc) as (resps' & fs'' & c' & Hs' & _ & Hc' & Hch).
  rewrite Hs in Hs'. injection Hs' as <- <-.
  exists c'. split; trivial.
  clear - Hkeep Hch. induction Hch; eauto.
Qed.
End Changes.

(** ** What every change keeps *)

Lemma change_unique_ids (c c' : contents) :
  change c c' -> unique_ids c -> unique_ids c'.
Proof.
  unfold unique_ids. intros H [Hp Hl].
  destruct H as [c|ps ls ms f Hn|before p after ls ms e Hn
                 |ps ls ms f Hn|ps before l after ms e Hn|ps ls ms f now Hv];
    simpl in *; split; trivial.
  - rewrite map_app. simpl. apply NoDup_app; trivial.
    + repeat constructor. intros [].
    + intros i Hin [<-|[]]. tauto.
  - rewrite map_app in *. exact Hp.
  - rewrite map_app. simpl. apply NoDup_app; trivial.
    + repeat constructor. intros [].
    + intros i Hin [<-|[]]. tauto.
  - rewrite map_app in *. exact Hl.
Qed.

Lemma product_of_form_trimmed (f : product_form) :
  trimmed_product (product_of_form f).
Proof. repeat split; apply strip_idem. Qed.

Lemma location_of_form_trimmed (f : location_form) :
  trimmed_location (location_of_form f).
Proof. repeat split; apply strip_idem. Qed.

Lemma change_all_trimmed (c c' : contents) :
  change c c' -> all_trimmed c -> all_trimmed c'.
Proof.
  unfold all_trimmed. intros H [Hp Hl].
  destruct H as [c|ps ls ms f Hn|before p after ls ms e Hn
                 |ps ls ms f Hn|ps before l after ms e Hn|ps ls ms f now Hv];
    simpl in *; split; trivial.
  - apply Forall_app. split; trivial.
    repeat constructor; apply strip_idem.
  - apply Forall_app in Hp as [Hb Ha]. inversion Ha as [|? ? Hx Ha']; subst.
    apply Forall_app. split; trivial. constructor; trivial.
    destruct Hx as (Hi & _ & _). repeat split; trivial; apply strip_idem.
  - apply Forall_app. split; trivial.
    repeat constructor; apply strip_idem.
  - apply Forall_app in Hl as [Hb Ha]. inversion Ha as [|? ? Hx Ha']; subst.
    apply Forall_app. split; trivial. constructor; trivial.
    destruct Hx as (Hi & _ & _). repeat split; trivial; apply strip_idem.
Qed.

Lemma change_ledger_kept (c c' : contents) :
  change c c' -> ledger_kept c -> ledger_kept c'.
Proof.
  unfold ledger_kept. intros H [Hi Hl].
  destruct H as [c|ps ls ms f Hn|before p after ls ms e Hn
                 |ps ls ms f Hn|ps before l after ms e Hn|ps ls ms f now Hv];
    simpl in *; try (split; assumption).
  split.
  - unfold increasing_ids in *. rewrite map_app. simpl.
    apply StronglySorted_snoc; trivial. apply next_id_spec.
  - apply Forall_app. split; trivial. constructor; [|constructor].
    unfold located. simpl. rewrite !present_location_field.
    split; [|split; apply location_field_no_blank].
    destruct (absent (mf_from_location f)), (absent (mf_to_location f));
      simpl in *; congruence.
Qed.

Lemma grown_refl (c : contents) : grown c c.
Proof. repeat split; exists []; now rewrite app_nil_r. Qed.

Lemma change_grown (c0 c c' : contents) :
  change c c' -> grown c0 c -> grown c0 c'.
Proof.
  unfold grown. intros H ([news Hm] & [pids Hp] & [lids Hl]).
  destruct H as [c|ps ls ms f Hn|before p after ls ms e Hn
                 |ps ls ms f Hn|ps before l after ms e Hn|ps ls ms f now Hv];
    simpl in *; (split; [|split]); eauto.
  - eexists. rewrite map_app, Hp, <- app_assoc. reflexivity.
  - exists pids. rewrite <- Hp, !map_app. reflexivity.
  - eexists. rewrite map_app, Hl, <- app_assoc. reflexivity.
  - exists lids. rewrite <- Hl, !map_app. reflexivity.
  - eexists. rewrite Hm, <- app_assoc. reflexivity.
Qed.

Section Kept.
Context {text : Type}.
Variable cp : codec text (list Product.t).
Variable cl : codec text (list Location.t).
Variable cm : codec text (list Movement.t).
Hypothesis Hcp : round_trips cp.
Hypothesis Hcl : round_trips cl.
Hypothesis Hcm : round_trips cm.
Variables (reqs : list request) (fs : disk text) (c : contents).
Hypothesis Hc : read cp cl cm fs = Ok c.


Variables (resps : list response) (fs' : disk text).
Hypothesis Hserve : serve (map (handle cp cl cm) reqs) fs = Ok (resps, fs').

(** X10: identifiers stay unique.  If no two products and no two
    locations share an identifier, the same is true after any sequence
    of requests. *)
Theorem requests_keep_ids_unique :
  unique_ids c -> exists c', read cp cl cm fs' = Ok c' /\ unique_ids c'.
Proof.
  intros H.
  destruct (serve_keeps cp cl cm Hcp Hcl Hcm unique_ids change_unique_ids
              reqs fs c resps fs' Hc Hserve) as (c' & Hc' & Hk).
  eauto.
Qed.

(** X11: the registries stay trimmed.  If no field of a product or of a
    location starts or ends on white space, the same is true after any
    sequence of requests: what the handlers store, they strip. *)
Theorem requests_keep_fields_trimmed :
  all_trimmed c -> exists c', read cp cl cm fs' = Ok c' /\ all_trimmed c'.
Proof.
  intros H.
  destruct (serve_keeps cp cl cm Hcp Hcl Hcm all_trimmed change_all_trimmed
              reqs fs c resps fs' Hc Hserve) as (c' & Hc' & Hk).
  eauto.
Qed.

(** X12: the ledger stays well formed.  If the identifiers of the
    movements are strictly increasing and every movement has a source
    or a destination, none of them empty or blank, the same is true
    after any sequence of requests. *)
Theorem requests_keep_ledger :
  ledger_kept c -> exists c', read cp cl cm fs' = Ok c' /\ ledger_kept c'.
Proof.
  intros H.
  destruct (serve_keeps cp cl cm Hcp Hcl Hcm ledger_kept change_ledger_kept
              reqs fs c resps fs' Hc Hserve) as (c' & Hc' & Hk).
  eauto.
Qed.

(** X13: nothing is ever removed.  After any sequence of requests the
    ledger is the old ledger, record for record, followed by the new
    movements; and each registry lists the old identifiers, in their
    order, followed by the new ones. *)
Theorem requests_remove_nothing :
  exists c', read cp cl cm fs' = Ok c' /\ grown c c'.
Proof.
  destruct (serve_keeps cp cl cm Hcp Hcl Hcm (grown c) (change_grown c)
              reqs fs c resps fs' Hc Hserve) as (c' & Hc' & Hk).
  exists c'. split; trivial. apply Hk, grown_refl.
Qed.
End Kept.

Lemma some_contents_unique : unique_ids some_contents.
Proof. split; repeat constructor; simpl; intuition discriminate. Qed.

Lemma some_contents_trimmed : all_trimmed some_contents.
Proof. split; repeat constructor. Qed.

Lemma some_contents_ledger : ledger_kept some_contents.
Proof.
  split.
  - unfold increasing_ids. simpl. repeat constructor; lia.
  - repeat constructor.
Qed.


Lemma requests_keep_ids_unique_witness :
  exists resps fs' c',
    serve (map (handle products_codec locations_codec movements_codec)
               some_requests) some_files = Ok (resps, fs')
    /\ read products_codec locations_codec movements_codec fs' = Ok c'
    /\ unique_ids c'.
Proof.
  destruct (serve (map (handle products_codec locations_codec movements_codec)
                       some_requests) some_files) as [[resps fs']|e] eqn:E.
  - destruct (requests_keep_ids_unique products_codec locations_codec
                movements_codec (fun l => eq_refl) (fun l => eq_refl)
                (fun l => eq_refl) some_requests some_files some_contents
                eq_refl resps fs' E some_contents_unique) as (c' & H1 & H2).
    exists resps, fs', c'. auto.
  - vm_compute in E. discriminate.
Defined.

Lemma requests_keep_fields_trimmed_witness :
  exists resps fs' c',
    serve (map (handle products_codec locations_codec movements_codec)
               some_requests) some_files = Ok (resps, fs')
    /\ read products_codec locations_codec movements_codec fs' = Ok c'
    /\ all_trimmed c'.
Proof.
  destruct (serve (map (handle products_codec locations_codec movements_codec)
                       some_requests) some_files) as [[resps fs']|e] eqn:E.
  - destruct (requests_keep_fields_trimmed products_codec locations_codec
                movements_codec (fun l => eq_refl) (fun l => eq_refl)
                (fun l => eq_refl) some_requests some_files some_contents
                eq_refl resps fs' E some_contents_trimmed) as (c' & H1 & H2).
    exists resps, fs', c'. auto.
  - vm_compute in E. discriminate.
Defined.

Lemma requests_keep_ledger_witness :
  exists resps fs' c',
    serve (map (handle products_codec locations_codec movements_codec)
               some_requests) some_files = Ok (resps, fs')
    /\ read products_codec locations_codec movements_codec fs' = Ok c'
    /\ ledger_kept c'.
Proof.
  destruct (serve (map (handle products_codec locations_codec movements_codec)
                       some_requests) some_files) as [[resps fs']|e] eqn:E.
  - destruct (requests_keep_ledger products_codec locations_codec
                movements_codec (fun l => eq_refl) (fun l => eq_refl)
                (fun l => eq_refl) some_requests some_files some_contents
                eq_refl resps fs' E some_contents_ledger) as (c' & H1 & H2).
    exists resps, fs', c'. auto.
  - vm_compute in E. discriminate.
Defined.

Lemma requests_remove_nothing_witness :
  exists resps fs' c',
    serve (map (handle products_codec locations_codec movements_codec)
               some_requests) some_files = Ok (resps, fs')
    /\ read products_codec locations_codec movements_codec fs' = Ok c'
    /\ grown some_contents c'.
Proof.
  destruct (serve (map (handle products_codec locations_codec movements_codec)
                       some_requests) some_files) as [[resps fs']|e] eqn:E.
  - destruct (requests_remove_nothing products_codec locations_codec
                movements_codec (fun l => eq_refl) (fun l => eq_refl)
                (fun l => eq_refl) some_requests some_files some_contents
                eq_refl resps fs' E) as (c' & H1 & H2).
    exists resps, fs', c'. auto.
  - vm_compute in E. discriminate.
Defined.

(** The example requests, served: the second, the fifth and the ninth
    are refused, the third shows a page. *)
Example some_requests_served :
  exists fs',
    serve (map (handle products_codec locations_codec movements_codec)
               some_requests) some_files
    = Ok ([ProductAdded; DuplicateProductId;
           render_template "add_product.html"; ProductUpdated;
           ProductNotFound; LocationAdded; LocationUpdated; MovementAdded;
           InvalidMovement; MovementAdded], fs')
    /\ read products_codec locations_codec movements_codec fs'
       = Ok {| c_products :=
                 [ Product.mk (py "P1") (py "Gadget") [];
                   Product.mk (py "P2") (py "Widget") (py "large");
                   Product.mk (py "P3") (py "anvil") [];
                   a_new_product ];
               c_locations :=
                 [ Location.mk (py "L1") (py "Main yard") (py "1 High St");
                   Location.mk (py "L2") (py "Annex") (py "2 Side St");
                   a_new_location ];
               c_movements :=
                 some_movements
                 ++ [ Movement.mk 6 stamp (Some (py "L1")) (Some (py "L2"))
                                  (py "P1") 4;
                      Movement.mk 7 stamp None (Some (py "L2")) (py "P1") 4 ]
            |}.
Proof. eexists. split; reflexivity. Qed.

(** * How the operations compose *)

Lemma fold_max_app (l r : list Z) (x : Z) :
  fold_left Z.max (l ++ r) x = fold_left Z.max r (fold_left Z.max l x).
Proof. apply fold_left_app. Qed.

Lemma max_default_snoc (l : list Z) :
  max_default (l ++ [max_default l 0 + 1]) 0 = max_default l 0 + 1.
Proof.
  destruct l as [|x r]; simpl; [reflexivity|].
  rewrite fold_max_app. simpl. lia.
Qed.

Lemma seq_from_shift (n : Z) (k : nat) :
  map (fun i => n + Z.of_nat i) (seq 2 k)
  = map (fun i => n + 1 + Z.of_nat i) (seq 1 k).
Proof.
  rewrite <- (seq_shift k 1), map_map. apply map_ext. intros i. lia.
Qed.

Section Appends.
Context {text : Type}.
Variable cp : codec text (list Product.t).
Variable cl : codec text (list Location.t).
Variable cm : codec text (list Movement.t).
Hypothesis Hcm : round_trips cm.

(** X14: movements are numbered on from the greatest identifier.  Any
    number of appends with a location each, served in turn on a data
    directory that loads, are all accepted; the ledger is then the old
    one followed by one movement for each, and their identifiers are
    [n+1], [n+2], ... where [n] is the greatest identifier of the old
    ledger, or 0 for an empty ledger, which is thus numbered 1, 2, ... *)
Theorem appends_numbered (forms : list (movement_form * str)) :
  forall (fs : disk text) (ps : list Product.t) (ls : list Location.t)
         (ms : list Movement.t),
  load_data cp fs PRODUCTS_FILE = Ok ps ->
  load_data cl fs LOCATIONS_FILE = Ok ls ->
  load_data cm fs MOVEMENTS_FILE = Ok ms ->
  Forall (fun fn => absent (mf_from_location (fst fn))
                    && absent (mf_to_location (fst fn)) = false) forms ->
  exists fs' news,
    serve (map (fun fn => add_movement cp cl cm POST (fst fn) (snd fn)) forms) fs
    = Ok (map (fun _ => MovementAdded) forms, fs')
    /\ load_data cm fs' MOVEMENTS_FILE = Ok (ms ++ news)
    /\ map Movement.movement_id news
       = map (fun i => max_default (map Movement.movement_id ms) 0 + Z.of_nat i)
             (seq 1 (List.length forms)).
Proof.
  induction forms as [|[f now] forms IH]; intros fs ps ls ms Hp Hl Hm Hv.
  - exists fs, []. simpl. rewrite app_nil_r. auto.
  - inversion Hv as [|? ? Hf Hv']; subst. simpl in Hf. simpl.
    rewrite (add_movement_post cp cl cm f now fs ps ls ms Hp Hl Hm), Hf.
    simpl.
    set (r := Movement.mk (max_default (map Movement.movement_id ms) 0 + 1) now
                (location_field (mf_from_location f))
                (location_field (mf_to_location f))
                (mf_product_id f) (mf_qty f)).
    destruct (IH (save_data cm fs MOVEMENTS_FILE (ms ++ [r])) ps ls (ms ++ [r]))
      as (fs' & news & Hs & Hload & Hids); trivial.
    + now apply load_save_same.
    + exists fs', (r :: news). rewrite Hs. simpl. split; [reflexivity|].
      split; [now rewrite <- app_assoc in Hload|].
      rewrite Hids, map_app. simpl.
      rewrite max_default_snoc, seq_from_shift.
      f_equal.
Qed.
End Appends.

Lemma appends_numbered_witness :
  exists fs' news,
    serve (map (fun fn => add_movement products_codec locations_codec
                            movements_codec POST (fst fn) (snd fn))
               some_appends) gapped_files
    = Ok (map (fun _ => MovementAdded) some_appends, fs')
    /\ load_data movements_codec fs' MOVEMENTS_FILE
       = Ok (a_gapped_ledger ++ news)
    /\ map Movement.movement_id news
       = map (fun i => max_default (map Movement.movement_id a_gapped_ledger) 0
                       + Z.of_nat i)
             (seq 1 (List.length some_appends)).
Proof.
  apply (appends_numbered products_codec locations_codec movements_codec
           (fun l => eq_refl) some_appends gapped_files [] [] a_gapped_ledger
           eq_refl eq_refl eq_refl).
  repeat constructor.
Defined.

Lemma update_first_twice {A} (test : A -> bool) (f1 f2 : A -> A) (l : list A) :
  (forall x, test (f1 x) = test x) ->
  (forall x, f2 (f1 x) = f2 x) ->
  update_first test f2 (update_first test f1 l) = update_first test f2 l.
Proof.
  intros Ht Hf. induction l as [|x l IH]; simpl; trivial.
  destruct (test x) eqn:E; simpl.
  - now rewrite Ht, E, Hf.
  - now rewrite E, IH.
Qed.

Lemma find_update_first_Some {A} (test : A -> bool) (f : A -> A) (l : list A) :
  (forall x, test (f x) = test x) ->
  find test l <> None -> find test (update_first test f l) <> None.
Proof.
  intros Ht. induction l as [|x l IH]; simpl; trivial.
  destruct (test x) eqn:E; simpl.
  - rewrite Ht, E. discriminate.
  - now rewrite E.
Qed.

Section Registries.
Context {text : Type}.
Variable cp : codec text (list Product.t).
Variable cl : codec text (list Location.t).
Hypothesis Hcp : round_trips cp.
Hypothesis Hcl : round_trips cl.

Lemma add_product_added (f : product_form) (fs fs1 : disk text) :
  add_product cp POST f fs = Ok (ProductAdded, fs1) ->
  exists ps, products cp fs = Ok ps
             /\ products cp fs1 = Ok (ps ++ [product_of_form f]).
Proof.
  destruct (products cp fs) as [ps|e] eqn:Hp.
  - rewrite (add_product_post cp f fs ps Hp).
    destruct (existsb _ ps); [discriminate|]. intros [= <-].
    exists ps. split; trivial. now apply load_save_same.
  - unfold products in Hp. unfold add_product. rewrite Hp. discriminate.
Qed.

Lemma add_location_added (f : location_form) (fs fs1 : disk text) :
  add_location cl POST f fs = Ok (LocationAdded, fs1) ->
  exists ls, locations cl fs = Ok ls
             /\ locations cl fs1 = Ok (ls ++ [location_of_form f]).
Proof.
  destruct (locations cl fs) as [ls|e] eqn:Hl.
  - rewrite (add_location_post cl f fs ls Hl).
    destruct (existsb _ ls); [discriminate|]. intros [= <-].
    exists ls. split; trivial. now apply load_save_same.
  - unfold locations in Hl. unfold add_location. rewrite Hl. discriminate.
Qed.

(** X15: once a record is added, its identifier is taken and the record
    can be edited.  After an add that succeeded, an add of any form
    with the same identifier, white space around it aside, is refused
    as a duplicate and leaves the data directory as it is, and an edit
    under the stripped identifier finds the record; in both
    registries. *)
Theorem added_then_known :
  (forall f fs fs1,
     add_product cp POST f fs = Ok (ProductAdded, fs1) ->
     (forall f', strip (pf_product_id f') = strip (pf_product_id f) ->
                 add_product cp POST f' fs1 = Ok (DuplicateProductId, fs1))
     /\ (forall e, exists fs2,
           edit_product cp POST (strip (pf_product_id f)) e fs1
           = Ok (ProductUpdated, fs2)))
  /\ (forall f fs fs1,
        add_location cl POST f fs = Ok (LocationAdded, fs1) ->
        (forall f', strip (lf_location_id f') = strip (lf_location_id f) ->
                    add_location cl POST f' fs1 = Ok (DuplicateLocationId, fs1))
        /\ (forall e, exists fs2,
              edit_location cl POST (strip (lf_location_id f)) e fs1
              = Ok (LocationUpdated, fs2))).
Proof.
  split.
  - intros f fs fs1 H. destruct (add_product_added f fs fs1 H) as (ps & _ & H1).
    assert (Hin : In (strip (pf_product_id f))
                     (map Product.product_id (ps ++ [product_of_form f]))).
    { rewrite map_app, in_app_iff. right. now left. }
    split.
    + intros f' Hf'. rewrite (add_product_post cp f' fs1 _ H1). simpl.
      rewrite Hf'. apply (existsb_ident Product.product_id) in Hin.
      now rewrite Hin.
    + intros e. rewrite (edit_product_post cp _ e fs1 _ H1).
      pose proof (find_update_first
        (fun p => str_eqb (Product.product_id p) (strip (pf_product_id f)))
        (product_edited e) (ps ++ [product_of_form f])) as Hfind.
      destruct (find _ _); [eauto|].
      apply Forall_test_ident in Hfind. tauto.
  - intros f fs fs1 H. destruct (add_location_added f fs fs1 H) as (ls & _ & H1).
    assert (Hin : In (strip (lf_location_id f))
                     (map Location.location_id (ls ++ [location_of_form f]))).
    { rewrite map_app, in_app_iff. right. now left. }
    split.
    + intros f' Hf'. rewrite (add_location_post cl f' fs1 _ H1). simpl.
      rewrite Hf'. apply (existsb_ident Location.location_id) in Hin.
      now rewrite Hin.
    + intros e. rewrite (edit_location_post cl _ e fs1 _ H1).
      pose proof (find_update_first
        (fun l => str_eqb (Location.location_id l) (strip (lf_location_id f)))
        (location_edited e) (ls ++ [location_of_form f])) as Hfind.
      destruct (find _ _); [eauto|].
      apply Forall_test_ident in Hfind. tauto.
Qed.

Lemma edit_product_updated (id : str) (e : product_edit) (fs fs1 : disk text) :
  edit_product cp POST id e fs = Ok (ProductUpdated, fs1) ->
  exists ps,
    products cp fs = Ok ps
    /\ find (fun p => str_eqb (Product.product_id p) id) ps <> None
    /\ products cp fs1
       = Ok (update_first (fun p => str_eqb (Product.product_id p) id)
                          (product_edited e) ps).
Proof.
  destruct (products cp fs) as [ps|err] eqn:Hp.
  - rewrite (edit_product_post cp id e fs ps Hp).
    destruct (find _ ps) eqn:E; [|discriminate]. intros [= <-].
    exists ps. split; [reflexivity|]. split; [rewrite E; discriminate|].
    now apply load_save_same.
  - unfold products in Hp. unfold edit_product. rewrite Hp. discriminate.
Qed.

Lemma edit_location_updated (id : str) (e : location_edit) (fs fs1 : disk text) :
  edit_location cl POST id e fs = Ok (LocationUpdated, fs1) ->
  exists ls,
    locations cl fs = Ok ls
    /\ find (fun l => str_eqb (Location.location_id l) id) ls <> None
    /\ locations cl fs1
       = Ok (update_first (fun l => str_eqb (Location.location_id l) id)
                          (location_edited e) ls).
Proof.
  destruct (locations cl fs) as [ls|err] eqn:Hl.
  - rewrite (edit_location_post cl id e fs ls Hl).
    destruct (find _ ls) eqn:E; [|discriminate]. intros [= <-].
    exists ls. split; [reflexivity|]. split; [rewrite E; discriminate|].
    now apply load_save_same.
  - unfold locations in Hl. unfold edit_location. rewrite Hl. discriminate.
Qed.

(** X16: an edit leaves no trace of the edit before it.  Two edits of
    the same identifier, one after the other, leave the registry as the
    second edit alone would have left it; in both registries. *)
Theorem edit_overwrites :
  (forall id e1 e2 fs fs1,
     edit_product cp POST id e1 fs = Ok (ProductUpdated, fs1) ->
     exists fs2 fs2',
       edit_product cp POST id e2 fs1 = Ok (ProductUpdated, fs2)
       /\ edit_product cp POST id e2 fs = Ok (ProductUpdated, fs2')
       /\ products cp fs2 = products cp fs2')
  /\ (forall id e1 e2 fs fs1,
        edit_location cl POST id e1 fs = Ok (LocationUpdated, fs1) ->
        exists fs2 fs2',
          edit_location cl POST id e2 fs1 = Ok (LocationUpdated, fs2)
          /\ edit_location cl POST id e2 fs = Ok (LocationUpdated, fs2')
          /\ locations cl fs2 = locations cl fs2').
Proof.
  split.
  - intros id e1 e2 fs fs1 H.
    destruct (edit_product_updated id e1 fs fs1 H) as (ps & Hp & Hfind & Hp1).
    rewrite (edit_product_post cp id e2 fs1 _ Hp1).
    rewrite (edit_product_post cp id e2 fs ps Hp).
    pose proof (find_update_first_Some
                  (fun p => str_eqb (Product.product_id p) id)
                  (product_edited e1) ps (fun x => eq_refl) Hfind) as Hfind1.
    destruct (find _ (update_first _ _ ps)); [|congruence].
    destruct (find _ ps); [|congruence].
    do 2 eexists. split; [reflexivity|]. split; [reflexivity|].
    unfold products. rewrite !load_save_same by trivial.
    now rewrite update_first_twice.
  - intros id e1 e2 fs fs1 H.
    destruct (edit_location_updated id e1 fs fs1 H) as (ls & Hl & Hfind & Hl1).
    rewrite (edit_location_post cl id e2 fs1 _ Hl1).
    rewrite (edit_location_post cl id e2 fs ls Hl).
    pose proof (find_update_first_Some
                  (fun l => str_eqb (Location.location_id l) id)
                  (location_edited e1) ls (fun x => eq_refl) Hfind) as Hfind1.
    destruct (find _ (update_first _ _ ls)); [|congruence].
    destruct (find _ ls); [|congruence].
    do 2 eexists. split; [reflexivity|]. split; [reflexivity|].
    unfold locations. rewrite !load_save_same by trivial.
    now rewrite update_first_twice.
Qed.
End Registries.

Lemma added_then_known_witness :
  add_product products_codec POST
    {| pf_product_id := py " P4"; pf_name := py "Bolt, again";
       pf_description := None |}
    (save_data products_codec some_files PRODUCTS_FILE
       (some_products ++ [a_new_product]))
  = Ok (DuplicateProductId,
        save_data products_codec some_files PRODUCTS_FILE
          (some_products ++ [a_new_product])).
Proof.
  destruct (added_then_known products_codec locations_codec
              (fun l => eq_refl) (fun l => eq_refl)) as [Hp _].
  destruct (Hp (product_form_of a_new_product) some_files
              (save_data products_codec some_files PRODUCTS_FILE
                 (some_products ++ [a_new_product])) eq_refl) as [Hdup _].
  apply Hdup. reflexivity.
Defined.

Lemma edit_overwrites_witness :
  exists fs2 fs2',
    edit_product products_codec POST (py "P1") another_product_edit
      (save_data products_codec some_files PRODUCTS_FILE
         (update_first (fun p => str_eqb (Product.product_id p) (py "P1"))
                       (product_edited a_product_edit) some_products))
    = Ok (ProductUpdated, fs2)
    /\ edit_product products_codec POST (py "P1") another_product_edit
         some_files
       = Ok (ProductUpdated, fs2')
    /\ products products_codec fs2 = products products_codec fs2'.
Proof.
  destruct (edit_overwrites products_codec locations_codec
              (fun l => eq_refl) (fun l => eq_refl)) as [Hp _].
  apply (Hp (py "P1") a_product_edit another_product_edit some_files).
  reflexivity.
Defined.

(** ** An edit and the report *)

Lemma comprehension_cong {R} (ident name : R -> str) (rs : list R)
    (d1 d2 : dict str) (id : str) :
  dict_get d1 id = dict_get d2 id ->
  dict_get (fold_left (fun d r => dict_set d (ident r) (name r)) rs d1) id
  = dict_get (fold_left (fun d r => dict_set d (ident r) (name r)) rs d2) id.
Proof.
  revert d1 d2. induction rs as [|r rs IH]; intros d1 d2 H; simpl; trivial.
  apply IH. destruct (str_eq_dec id (ident r)) as [->|Hne].
  - now rewrite !dict_get_set_same.
  - now rewrite !dict_get_set_other.
Qed.

Lemma comprehension_edit_other {R} (ident name : R -> str)
    (before after : list R) (r r' : R) (id : str) :
  ident r' = ident r -> id <> ident r ->
  dict_get (fold_left (fun d r => dict_set d (ident r) (name r))
                      (before ++ r' :: after) []) id
  = dict_get (fold_left (fun d r => dict_set d (ident r) (name r))
                        (before ++ r :: after) []) id.
Proof.
  intros Hid Hne. rewrite !fold_left_app. simpl. apply comprehension_cong.
  rewrite Hid. now rewrite !dict_get_set_other.
Qed.

Lemma NoDup_ident_after {R} (ident : R -> str) (before after : list R) (r : R) :
  NoDup (map ident (before ++ r :: after)) -> ~ In (ident r) (map ident after).
Proof.
  rewrite map_app. simpl. intros H. apply NoDup_remove_2 in H.
  intros Hin. apply H. apply in_or_app. now right.
Qed.

Section EditAndReport.
Context {text : Type}.
Variable cp : codec text (list Product.t).
Variable cl : codec text (list Location.t).
Variable cm : codec text (list Movement.t).
Variables (fs : disk text) (ps : list Product.t) (ls : list Location.t)
          (ms : list Movement.t).
Hypothesis Hcp : round_trips cp.
Hypothesis Hcl : round_trips cl.
Hypothesis Hps : load_data cp fs PRODUCTS_FILE = Ok ps.
Hypothesis Hls : load_data cl fs LOCATIONS_FILE = Ok ls.
Hypothesis Hms : load_data cm fs MOVEMENTS_FILE = Ok ms.

(** X17: an edit shows in the report.  After a product of a registry
    with unique identifiers was edited, the rows of that product carry
    the new name, stripped, and every other name of the report is what
    it was before the edit. *)
Theorem edited_product_in_report (id : str) (e : product_edit)
    (fs' : disk text) (rows : list Row.t) (x : Row.t) :
  NoDup (map Product.product_id ps) ->
  edit_product cp POST id e fs = Ok (ProductUpdated, fs') ->
  report cp cl cm fs' = Ok rows -> In x rows ->
  (Row.product_id x = id -> Row.product_name x = strip (pe_name e))
  /\ (Row.product_id x <> id ->
      Row.product_name x = get (product_dict ps) (Row.product_id x) Unknown)
  /\ Row.location_name x = get (location_dict ls) (Row.location_id x) Unknown.
Proof.
  intros Hnd Hedit Hrep Hx.
  rewrite (edit_product_post cp id e fs ps Hps) in Hedit.
  pose proof (find_update_first (fun p => str_eqb (Product.product_id p) id)
                (product_edited e) ps) as Hfind.
  destruct (find _ ps) as [p|]; [|discriminate].
  destruct Hfind as (before & after & -> & Hp & _ & Hu).
  apply str_eqb_eq in Hp. injection Hedit as <-. rewrite Hu in Hrep.
  rewrite (report_loaded cp cl cm _ ms (before ++ product_edited e p :: after) ls)
    in Hrep; trivial; [|now apply load_save_same].
  destruct (report_row_sound _ _ _ _ x Hrep Hx) as (_ & _ & Hpn & Hln).
  apply NoDup_ident_after in Hnd.
  split; [|split; [|exact Hln]].
  - intros Hid. rewrite Hpn, Hid, <- Hp.
    change (Product.product_id p)
      with (Product.product_id (product_edited e p)).
    apply product_dict_last. exact Hnd.
  - intros Hne. rewrite Hpn. unfold get, product_dict.
    rewrite (comprehension_edit_other Product.product_id Product.name before
               after p (product_edited e p)); trivial.
    congruence.
Qed.

(** X18: the same for a location: after a location of a registry with
    unique identifiers was edited, the rows at that location carry the
    new name, stripped, and every other name of the report is what it
    was before the edit. *)
Theorem edited_location_in_report (id : str) (e : location_edit)
    (fs' : disk text) (rows : list Row.t) (x : Row.t) :
  NoDup (map Location.location_id ls) ->
  edit_location cl POST id e fs = Ok (LocationUpdated, fs') ->
  report cp cl cm fs' = Ok rows -> In x rows ->
  (Row.location_id x = id -> Row.location_name x = strip (le_name e))
  /\ (Row.location_id x <> id ->
      Row.location_name x = get (location_dict ls) (Row.location_id x) Unknown)
  /\ Row.product_name x = get (product_dict ps) (Row.product_id x) Unknown.
Proof.
  intros Hnd Hedit Hrep Hx.
  rewrite (edit_location_post cl id e fs ls Hls) in Hedit.
  pose proof (find_update_first (fun l => str_eqb (Location.location_id l) id)
                (location_edited e) ls) as Hfind.
  destruct (find _ ls) as [l|]; [|discriminate].
  destruct Hfind as (before & after & -> & Hl & _ & Hu).
  apply str_eqb_eq in Hl. injection Hedit as <-. rewrite Hu in Hrep.
  rewrite (report_loaded cp cl cm _ ms ps (before ++ location_edited e l :: after))
    in Hrep; trivial; [|now apply load_save_same].
  destruct (report_row_sound _ _ _ _ x Hrep Hx) as (_ & _ & Hpn & Hln).
  apply NoDup_ident_after in Hnd.
  split; [|split; [|exact Hpn]].
  - intros Hid. rewrite Hln, Hid, <- Hl.
    change (Location.location_id l)
      with (Location.location_id (location_edited e l)).
    apply location_dict_last. exact Hnd.
  - intros Hne. rewrite Hln. unfold get, location_dict.
    rewrite (comprehension_edit_other Location.location_id Location.name before
               after l (location_edited e l)); trivial.
    congruence.
Qed.
End EditAndReport.

Lemma edited_product_in_report_witness :
  Row.product_name (Row.mk (py "P1") (py "Gadget") (py "L2") (py "Annex") 9)
  = strip (pe_name a_product_edit).
Proof.
  destruct (edited_product_in_report products_codec locations_codec
              movements_codec some_files some_products some_locations
              some_movements (fun l => eq_refl) eq_refl eq_refl eq_refl
              (py "P1") a_product_edit product_edited_files
              product_edited_rows
              (Row.mk (py "P1") (py "Gadget") (py "L2") (py "Annex") 9))
    as [H _].
  - repeat constructor; simpl; intuition discriminate.
  - reflexivity.
  - vm_compute. reflexivity.
  - simpl. tauto.
  - apply H. reflexivity.
Defined.

Lemma edited_location_in_report_witness :
  Row.location_name
    (Row.mk (py "P3") (py "anvil") (py "L1") (py "Main yard") 7)
  = strip (le_name a_location_edit).
Proof.
  destruct (edited_location_in_report products_codec locations_codec
              movements_codec some_files some_products some_locations
              some_movements (fun l => eq_refl) eq_refl eq_refl eq_refl
              (py "L1") a_location_edit location_edited_files
              location_edited_rows
              (Row.mk (py "P3") (py "anvil") (py "L1") (py "Main yard") 7))
    as [H _].
  - repeat constructor; simpl; intuition discriminate.
  - reflexivity.
  - vm_compute. reflexivity.
  - simpl. tauto.
  - apply H. reflexivity.
Defined.
